(** * rds_param_group_util.py: a shallow embedding and its verification

    The script compares, copies and merges AWS RDS parameter groups.  It is
    embedded here function by function:

    - Python dictionaries describing one parameter or one parameter group
      are finite maps from field names to values ([gmap string pyval]), so
      that [==] on them is Leibniz equality;
    - the dictionary built by [change_list_to_dict] is an insertion-ordered
      association list ([pydict]), because the comparison iterates over it;
    - the boto3 client is a scripted collaborator: the world holds the
      replies the service will give, in order, and the log of every call
      issued; [print] appends to the captured standard output;
    - exceptions are a result constructor, threaded by a state-and-error
      monad [M]. *)

From stdpp Require Import gmap strings list fin_maps.
From Stdlib Require Import ZArith Lia.

Open Scope string_scope.
Open Scope Z_scope.
Open Scope list_scope.

(** ** Python values and dictionaries *)

(** Field values of the service's records: the members of a
    describe_db_parameters / describe_db_parameter_groups answer are strings
    and booleans; [PyNone] is Python's [None]. *)
Inductive pyval :=
  | PyNone
  | PyBool (b : bool)
  | PyStr (s : string).

#[global] Instance pyval_eq_dec : EqDecision pyval.
Proof. solve_decision. Defined.

(** Truth value of [if v:]. *)
Definition truthy (v : pyval) : bool :=
  match v with
  | PyNone => false
  | PyBool b => b
  | PyStr s => negb (bool_decide (s = ""))
  end.

(** One parameter (or one parameter group) as boto3 returns it. *)
Abbreviation record := (gmap string pyval).

(** [k in d] for a record. *)
Definition has_field (k : string) (d : record) : bool :=
  bool_decide (is_Some (d !! k)).

(** A dictionary keyed by arbitrary values, in insertion order. *)
Abbreviation pydict := (list (pyval * record)).

Definition dict_keys (d : pydict) : list pyval := d.*1.

Definition dict_contains (k : pyval) (d : pydict) : bool :=
  bool_decide (k ∈ dict_keys d).

Fixpoint dict_get (k : pyval) (d : pydict) : option record :=
  match d with
  | [] => None
  | (k', v) :: d' => if decide (k = k') then Some v else dict_get k d'
  end.

(** [d[k] = v]: an existing key keeps its place, a new key goes last. *)
Fixpoint dict_set (k : pyval) (v : record) (d : pydict) : pydict :=
  match d with
  | [] => [(k, v)]
  | (k', v') :: d' =>
      if decide (k = k') then (k, v) :: d' else (k', v') :: dict_set k v d'
  end.

(** [del d[k]] (for a key that is present). *)
Definition dict_del (k : pyval) (d : pydict) : pydict :=
  filter (λ kv, kv.1 ≠ k) d.

(** ** The remote service, the process and the monad *)

(** [boto3.client("rds", region_name=...)]. *)
Record client := Client { region_name : string }.

#[global] Instance client_eq_dec : EqDecision client.
Proof. solve_decision. Defined.

(** The answer dictionary of a describe call: each top-level key is there
    or not. *)
Record response := Response {
  DBParameterGroups : option (list record);
  Parameters : option (list record);
  Marker : option string
}.

(** The four operations the script calls, with their keyword arguments. *)
Inductive request :=
  | describe_db_parameter_groups
      (DBParameterGroupName : option string) (Marker : option string)
  | describe_db_parameters
      (DBParameterGroupName : string) (Marker : option string)
  | create_db_parameter_group
      (DBParameterGroupName : string) (DBParameterGroupFamily : pyval)
      (Description : pyval) (Tags : list (string * pyval))
  | modify_db_parameter_group
      (DBParameterGroupName : string) (Parameters : list record).

Inductive exn :=
  | KeyError (key : pyval)
  | IndexError
  | TypeError
  | Exception (msg : string)
  | ValueError (msg : string)
  | SystemExit (status : Z)
  | ClientError (code : string)   (* raised by the service *)
  | StopIteration.                (* the scripted replies are used up *)

(** What the service does with the next call. *)
Inductive reply :=
  | Answer (r : response)
  | Reject (code : string).

(** A printed line: literal text and interpolated values. *)
Inductive frag :=
  | T (s : string)
  | V (v : pyval)
  | R (r : record)
  | N (n : nat).

Abbreviation line := (list frag).

Record world := World {
  environ : gmap string string;
  argv : list string;
  replies : list reply;
  calls : list (client * request);
  stdout : list line
}.

Inductive result (A : Type) :=
  | Ok (a : A)
  | Raised (e : exn)
  | Diverged.
Arguments Ok {A} a.
Arguments Raised {A} e.
Arguments Diverged {A}.

Definition M (A : Type) : Type := world → result A * world.

#[global] Instance M_ret : MRet M := λ A a w, (Ok a, w).

#[global] Instance M_bind : MBind M := λ A B f m w,
  match m w with
  | (Ok a, w') => f a w'
  | (Raised e, w') => (Raised e, w')
  | (Diverged, w') => (Diverged, w')
  end.

Definition raise {A} (e : exn) : M A := λ w, (Raised e, w).

Definition print (l : line) : M unit := λ w,
  (Ok tt, World (environ w) (argv w) (replies w) (calls w) (stdout w ++ [l])).

(** A remote call: logged, then answered by the next scripted reply. *)
Definition call (c : client) (req : request) : M response := λ w,
  let log := calls w ++ [(c, req)] in
  match replies w with
  | [] => (Raised StopIteration, World (environ w) (argv w) [] log (stdout w))
  | Answer r :: rest =>
      (Ok r, World (environ w) (argv w) rest log (stdout w))
  | Reject code :: rest =>
      (Raised (ClientError code), World (environ w) (argv w) rest log (stdout w))
  end.

(** [d[k]] on a record. *)
Definition getitem (d : record) (k : string) : M pyval :=
  match d !! k with
  | Some v => mret v
  | None => raise (KeyError (PyStr k))
  end.

(** [d[k]] on a keyed dictionary. *)
Definition dict_getitem (d : pydict) (k : pyval) : M record :=
  match dict_get k d with
  | Some v => mret v
  | None => raise (KeyError k)
  end.

(** [resp[k]] for a top-level key of an answer. *)
Definition field {A} (k : string) (o : option A) : M A :=
  match o with
  | Some v => mret v
  | None => raise (KeyError (PyStr k))
  end.

(** [l[0]]. *)
Definition first_item {A} (l : list A) : M A :=
  match l with
  | x :: _ => mret x
  | [] => raise IndexError
  end.

(** [for x in xs: body], with the locals the body updates passed along. *)
Fixpoint for_each {A S} (xs : list A) (body : A → S → M S) (s : S) : M S :=
  match xs with
  | [] => mret s
  | x :: xs' => s' ← body x s; for_each xs' body s'
  end.

(** ** Functions *)

Definition append_if_value_present
    (list_to_append : list record) (eval_append : record) : list record :=
  if has_field "ParameterValue" eval_append
  then list_to_append ++ [eval_append]
  else list_to_append.

Definition change_list_to_dict
    (list_to_convert : list record) (key : string) : M pydict :=
  for_each list_to_convert (λ each_obj_in_list dict_to_export,
    if dict_contains (PyStr key) dict_to_export
    then raise (Exception "This key name is not unique.")
    else
      k ← getitem each_obj_in_list key;
      mret (dict_set k each_obj_in_list dict_to_export)) [].

(** Python's [l[start:stop]]: negative bounds count from the end, and both
    are clipped to the list. *)
Definition slice_bound (len i : Z) : Z :=
  if i <? 0 then Z.max (i + len) 0 else Z.min i len.

Definition py_slice {A} (l : list A) (start stop : Z) : list A :=
  let len := Z.of_nat (length l) in
  let lo := slice_bound len start in
  let hi := slice_bound len stop in
  take (Z.to_nat (hi - lo)) (drop (Z.to_nat lo) l).

(** The generator's loop; [None] when the fuel runs out. *)
Fixpoint chunks_from {A} (fuel : nat) (sequence : list A)
    (chunk_size start : Z) : option (list (list A)) :=
  if start <? Z.of_nat (length sequence) then
    match fuel with
    | O => None
    | S fuel' =>
        let end_ := start + chunk_size in
        rest ← chunks_from fuel' sequence chunk_size end_;
        Some (py_slice sequence start (start + chunk_size) :: rest)
    end
  else Some [].

(** Everything the generator yields; [None] when it never stops (a
    [chunk_size] that does not advance [start]).  One round of fuel per
    element is enough whenever [start] advances. *)
Definition chunks {A} (sequence : list A) (chunk_size : Z)
    : option (list (list A)) :=
  chunks_from (length sequence) sequence chunk_size 0.

Inductive pagination_token :=
  | TokenNone              (* None: nothing requested yet *)
  | TokenFalse             (* False: the last answer had no "Marker" *)
  | Token (m : string).

Definition next_token (chunk : response) : pagination_token :=
  match Marker chunk with
  | Some m => Token m
  | None => TokenFalse
  end.

Fixpoint return_parameter_groups_loop (fuel : nat) (rds_client_obj : client)
    (pagination_token : pagination_token) (groups_to_return : list pyval)
    : M (list pyval) :=
  match fuel with
  | O => λ w, (Diverged, w)
  | S fuel' =>
      match pagination_token with
      | TokenFalse => mret groups_to_return
      | _ =>
          group_chunk ←
            match pagination_token with
            | Token m =>
                call rds_client_obj (describe_db_parameter_groups None (Some m))
            | _ => call rds_client_obj (describe_db_parameter_groups None None)
            end;
          groups ← field "DBParameterGroups" (DBParameterGroups group_chunk);
          groups_to_return ←
            for_each groups (λ g groups_to_return,
              name ← getitem g "DBParameterGroupName";
              mret (groups_to_return ++ [name])) groups_to_return;
          return_parameter_groups_loop fuel' rds_client_obj
            (next_token group_chunk) groups_to_return
      end
  end.

(** Every pass of the loop that does not leave it issues one call, and a
    call with no reply left raises: one more pass than there are replies
    always suffices. *)
Definition return_parameter_groups (rds_client_obj : client) : M (list pyval) :=
  λ w, return_parameter_groups_loop (S (length (replies w)))
         rds_client_obj TokenNone [] w.

Fixpoint return_all_parameters_loop (fuel : nat) (rds_client_obj : client)
    (param_group : string) (pagination_token : pagination_token)
    (parameters_to_return : list record) : M (list record) :=
  match fuel with
  | O => λ w, (Diverged, w)
  | S fuel' =>
      match pagination_token with
      | TokenFalse => mret parameters_to_return
      | _ =>
          param_chunk ←
            match pagination_token with
            | Token m =>
                call rds_client_obj (describe_db_parameters param_group (Some m))
            | _ => call rds_client_obj (describe_db_parameters param_group None)
            end;
          params ← field "Parameters" (Parameters param_chunk);
          parameters_to_return ←
            for_each params (λ p parameters_to_return,
              mret (parameters_to_return ++ [p])) parameters_to_return;
          return_all_parameters_loop fuel' rds_client_obj param_group
            (next_token param_chunk) parameters_to_return
      end
  end.

Definition return_all_parameters_from_parameter_group
    (rds_client_obj : client) (param_group : string) : M (list record) :=
  λ w, return_all_parameters_loop (S (length (replies w)))
         rds_client_obj param_group TokenNone [] w.

Definition return_all_modifiable_parameters_with_value_from_parameter_group
    (rds_client_obj : client) (param_group : string) : M (list record) :=
  all_parameters ←
    return_all_parameters_from_parameter_group rds_client_obj param_group;
  for_each all_parameters (λ p parameters_to_return,
    is_modifiable ← getitem p "IsModifiable";
    if truthy is_modifiable
    then mret (append_if_value_present parameters_to_return p)
    else mret parameters_to_return) [].

Definition post_parameters_to_group (rds_client_obj : client)
    (param_group : string) (parameters : list record) : M unit :=
  if bool_decide (length parameters = 0%nat) then mret tt
  else
    match chunks parameters 20 with
    | None => λ w, (Diverged, w)
    | Some parameter_chunks =>
        for_each parameter_chunks (λ parameter_chunk _,
          call rds_client_obj
            (modify_db_parameter_group param_group parameter_chunk);;
          for_each parameter_chunk (λ p _,
            name ← getitem p "ParameterName";
            value ← getitem p "ParameterValue";
            print [T "    "; V name; T " = "; V value]) tt) tt
    end.

(** [summary["DBParameterGroups"][0][k]]. *)
Definition summary_item (summary : response) (k : string) : M pyval :=
  groups ← field "DBParameterGroups" (DBParameterGroups summary);
  group ← first_item groups;
  getitem group k.

Definition get_argv : M (list string) := λ w, (Ok (argv w), w).

(** Lines 131 to 135, the variables the copy starts from. *)
Definition copy_construct_variables (source_rds_client_obj : client)
    (source_param_group : string) (dest_rds_client_obj : client)
    : M (response * pyval * pyval * list record * list pyval) :=
  source_summary ←
    call source_rds_client_obj
      (describe_db_parameter_groups (Some source_param_group) None);
  source_family ← summary_item source_summary "DBParameterGroupFamily";
  source_description ← summary_item source_summary "Description";
  source_parameters ←
    return_all_modifiable_parameters_with_value_from_parameter_group
      source_rds_client_obj source_param_group;
  groups_in_dest_region ← return_parameter_groups dest_rds_client_obj;
  mret (source_summary, source_family, source_description,
        source_parameters, groups_in_dest_region).

Definition copy_rds_parameters (source_rds_client_obj : client)
    (source_param_group : string) (dest_rds_client_obj : client)
    (dest_param_group : string) : M unit :=
  '(source_summary, source_family, source_description,
    source_parameters, groups_in_dest_region) ←
    copy_construct_variables source_rds_client_obj source_param_group
      dest_rds_client_obj;
  if bool_decide (PyStr dest_param_group ∈ groups_in_dest_region)
  then raise (ValueError
                ("This group (" +:+ dest_param_group +:+
                 ") already exists in region."))
  else
    print [T "Created "; V (PyStr dest_param_group); T ":"];;
    print [T "  Number of 'source_parameters' to set: ";
           N (length source_parameters)];;
    copied_from ← summary_item source_summary "DBParameterGroupArn";
    command ← get_argv;
    let aws_tag :=
      [("CopiedFrom", copied_from);
       ("CopiedUsingCmd", PyStr (String.concat " " command));
       ("Repo", PyStr "github.com/EpiJunkie/aws_rds_parameter_groups_utility")] in
    call dest_rds_client_obj
      (create_db_parameter_group dest_param_group source_family
         source_description aws_tag);;
    post_parameters_to_group dest_rds_client_obj dest_param_group
      source_parameters;;
    print [T "Complete."].

(** The body of the first loop of the comparison, for one item of the
    source dictionary: it updates [diff_list] and deletes a changed name
    from [dest_parameters]. *)
Definition compare_source_step (source_parameters : pydict)
    (item : pyval * record) (locals : list record * pydict)
    : M (list record * pydict) :=
  let '(param_name, param_value) := item in
  let '(diff_list, dest_parameters) := locals in
  if negb (dict_contains param_name dest_parameters) then
    print [V param_name; T ":"];;
    source_value ← dict_getitem source_parameters param_name;
    print [T "< "; R source_value];;
    source_value ← dict_getitem source_parameters param_name;
    mret (append_if_value_present diff_list source_value, dest_parameters)
  else
    source_value ← dict_getitem source_parameters param_name;
    dest_value ← dict_getitem dest_parameters param_name;
    if bool_decide (source_value ≠ dest_value) then
      print [V param_name; T ":"];;
      source_value ← dict_getitem source_parameters param_name;
      print [T "< "; R source_value];;
      dest_value ← dict_getitem dest_parameters param_name;
      print [T "> "; R dest_value];;
      source_value ← dict_getitem source_parameters param_name;
      mret (append_if_value_present diff_list source_value,
            dict_del param_name dest_parameters)
    else mret (diff_list, dest_parameters).

Definition compare_source_pass (source_parameters : pydict)
    (diff_list : list record) (dest_parameters : pydict)
    : M (list record * pydict) :=
  for_each source_parameters (compare_source_step source_parameters)
    (diff_list, dest_parameters).

(** The body of the second loop, for one item left in the destination
    dictionary. *)
Definition compare_dest_step (source_parameters dest_parameters : pydict)
    (item : pyval * record) (_ : unit) : M unit :=
  let '(param_name, param_value) := item in
  if negb (dict_contains param_name source_parameters) then
    print [V param_name; T ":"];;
    dest_value ← dict_getitem dest_parameters param_name;
    print [T "> "; R dest_value]
  else mret tt.

Definition compare_dest_pass (source_parameters dest_parameters : pydict)
    : M unit :=
  for_each dest_parameters
    (compare_dest_step source_parameters dest_parameters) tt.

(** Lines 206 to 238: reindexing, the two loops, and the result. *)
Definition compare_collections (source_parameters dest_parameters : list record)
    (return_list : bool) : M (option (list record)) :=
  let diff_list := [] in
  source_parameters ← change_list_to_dict source_parameters "ParameterName";
  dest_parameters ← change_list_to_dict dest_parameters "ParameterName";
  '(diff_list, dest_parameters) ←
    compare_source_pass source_parameters diff_list dest_parameters;
  compare_dest_pass source_parameters dest_parameters;;
  print [T ""];;
  print [T ""];;
  if bool_decide (return_list = false) then
    print [T "Complete."];;
    mret None
  else mret (Some diff_list).

(** Lines 181 to 186, the variables the comparison starts from. *)
Definition compare_construct_variables (source_rds_client_obj : client)
    (source_param_group : string) (dest_rds_client_obj : client)
    (dest_param_group : string)
    : M (pyval * list record * pyval * list record) :=
  source_summary ←
    call source_rds_client_obj
      (describe_db_parameter_groups (Some source_param_group) None);
  source_family ← summary_item source_summary "DBParameterGroupFamily";
  source_parameters ←
    return_all_parameters_from_parameter_group
      source_rds_client_obj source_param_group;
  dest_summary ←
    call dest_rds_client_obj
      (describe_db_parameter_groups (Some dest_param_group) None);
  dest_family ← summary_item dest_summary "DBParameterGroupFamily";
  dest_parameters ←
    return_all_parameters_from_parameter_group
      dest_rds_client_obj dest_param_group;
  mret (source_family, source_parameters, dest_family, dest_parameters).

(** Lines 188 to 204, the head of the report. *)
Definition compare_print_header (source_param_group dest_param_group : string)
    (source_family : pyval) (source_parameters : list record)
    (dest_family : pyval) (dest_parameters : list record) : M unit :=
  print [T "Comparing "; V (PyStr source_param_group); T " and ";
         V (PyStr dest_param_group)];;
  print [T "    Number of 'source_parameters' to compare: ";
         N (length source_parameters)];;
  print [T "    Number of 'dest_parameters' to compare:   ";
         N (length dest_parameters)];;
  (if bool_decide (source_family ≠ dest_family) then
     print [T "    DBParameterGroupFamily mismatch."];;
     print [T "        Source DBParameterGroupFamily:      "; V source_family];;
     print [T "        Destination DBParameterGroupFamily: "; V dest_family]
   else
     print [T "    DBParameterGroupFamily: "; V source_family]);;
  print [T ""];;
  print [T ""];;
  print [T "diff like comparison:"];;
  print [T "< Source parameter group name:      "; V (PyStr source_param_group)];;
  print [T "> Destination parameter group name: "; V (PyStr dest_param_group)].

Definition compare_rds_parameters (source_rds_client_obj : client)
    (source_param_group : string) (dest_rds_client_obj : client)
    (dest_param_group : string) (return_list : bool)
    : M (option (list record)) :=
  '(source_family, source_parameters, dest_family, dest_parameters) ←
    compare_construct_variables source_rds_client_obj source_param_group
      dest_rds_client_obj dest_param_group;
  compare_print_header source_param_group dest_param_group
    source_family source_parameters dest_family dest_parameters;;
  compare_collections source_parameters dest_parameters return_list.

Definition merge_rds_parameters (source_rds_client_obj : client)
    (source_param_group : string) (dest_rds_client_obj : client)
    (dest_param_group : string) : M unit :=
  parameters_diff ←
    compare_rds_parameters source_rds_client_obj source_param_group
      dest_rds_client_obj dest_param_group true;
  print [T "Merging differences from '"; V (PyStr source_param_group);
         T "' into '"; V (PyStr dest_param_group); T "'."];;
  match parameters_diff with
  | Some parameters =>
      post_parameters_to_group dest_rds_client_obj dest_param_group parameters
  | None => raise TypeError   (* len(None) *)
  end.

(** ** Main *)

(** The command line as argparse reads it: the value given to each of the
    five options, if it was given. *)
Record cmdline := Cmdline {
  opt_action : option string;
  opt_parameter_group : option string;
  opt_source_region : option string;
  opt_dest_parameter_group : option string;
  opt_dest_region : option string
}.

Record namespace := Namespace {
  action : string;
  source_param_group : string;
  source_region : string;
  dest_param_group : string;
  dest_region : option string
}.

(** Line 62, run when the file is loaded. *)
Definition default_source_region : M string := λ w,
  match environ w !! "AWS_DEFAULT_REGION" with
  | Some region => (Ok region, w)
  | None => (Raised (KeyError (PyStr "AWS_DEFAULT_REGION")), w)
  end.

(** [parser.parse_args()]: three options are required, the action is one
    of four choices, and the source region falls back on its default. *)
Definition parse_args (cl : cmdline) (default_source_region : string)
    : M namespace :=
  match opt_action cl, opt_parameter_group cl, opt_dest_parameter_group cl with
  | Some a, Some p, Some d =>
      if bool_decide (a ∈ ["compare"; "copy"; "diff"; "merge"]) then
        mret (Namespace a p
                (default default_source_region (opt_source_region cl))
                d (opt_dest_region cl))
      else raise (SystemExit 2)
  | _, _, _ => raise (SystemExit 2)
  end.

Definition main (default_source_region : string) (cl : cmdline) : M unit :=
  args ← parse_args cl default_source_region;
  let dest_region := default (source_region args) (dest_region args) in
  let source_client := Client (source_region args) in
  let dest_client := Client dest_region in
  if bool_decide (action args = "compare") || bool_decide (action args = "diff")
  then
    compare_rds_parameters source_client (source_param_group args)
      dest_client (dest_param_group args) false;;
    mret tt
  else if bool_decide (action args = "copy") then
    copy_rds_parameters source_client (source_param_group args)
      dest_client (dest_param_group args)
  else if bool_decide (action args = "merge") then
    merge_rds_parameters source_client (source_param_group args)
      dest_client (dest_param_group args)
  else mret tt.

(** Running the file from the command line. *)
Definition run_script (cl : cmdline) : M unit :=
  region ← default_source_region;
  main region cl.

(** ** Vocabulary of the specification *)

(** The least number of batches of [b] that hold [n] items. *)
Definition ceil_div (n b : Z) : Z := (n + b - 1) / b.

(** The world after more lines were printed. *)
Definition add_out (w : world) (ls : list line) : world :=
  World (environ w) (argv w) (replies w) (calls w) (stdout w ++ ls).

(** The head of the comparison report (lines 188 to 204). *)
Definition header_lines (source_param_group dest_param_group : string)
    (source_family : pyval) (source_parameters : list record)
    (dest_family : pyval) (dest_parameters : list record) : list line :=
  [[T "Comparing "; V (PyStr source_param_group); T " and ";
    V (PyStr dest_param_group)];
   [T "    Number of 'source_parameters' to compare: ";
    N (length source_parameters)];
   [T "    Number of 'dest_parameters' to compare:   ";
    N (length dest_parameters)]]
  ++ (if bool_decide (source_family ≠ dest_family) then
        [[T "    DBParameterGroupFamily mismatch."];
         [T "        Source DBParameterGroupFamily:      "; V source_family];
         [T "        Destination DBParameterGroupFamily: "; V dest_family]]
      else [[T "    DBParameterGroupFamily: "; V source_family]])
  ++ [[T ""]; [T ""]; [T "diff like comparison:"];
      [T "< Source parameter group name:      "; V (PyStr source_param_group)];
      [T "> Destination parameter group name: "; V (PyStr dest_param_group)]].

(** The records of one page of a describe_db_parameters answer. *)
Definition page_records (r : response) : list record :=
  default [] (Parameters r).

(** The cursor a request carries for a given state of the loop. *)
Definition token_marker (t : pagination_token) : option string :=
  match t with
  | Token m => Some m
  | _ => None
  end.

(** The modifiable flag of a record, as [if p["IsModifiable"]] reads it. *)
Definition is_modifiable (p : record) : bool :=
  match p !! "IsModifiable" with
  | Some v => truthy v
  | None => false
  end.

(** The requests that only read from the service. *)
Definition is_describe (req : request) : bool :=
  match req with
  | describe_db_parameter_groups _ _ | describe_db_parameters _ _ => true
  | _ => false
  end.

(** A source item is source-only or changed with respect to [dest]. *)
Definition differs (dest : pydict) (item : pyval * record) : bool :=
  match dict_get item.1 dest with
  | None => true
  | Some d => bool_decide (item.2 ≠ d)
  end.

(** What the report says about one source item. *)
Definition source_entry (dest : pydict) (item : pyval * record) : list line :=
  match dict_get item.1 dest with
  | None => [[V item.1; T ":"]; [T "< "; R item.2]]
  | Some d =>
      if bool_decide (item.2 ≠ d)
      then [[V item.1; T ":"]; [T "< "; R item.2]; [T "> "; R d]]
      else []
  end.

(** What the report says about one item left in the destination. *)
Definition dest_entry (source : pydict) (item : pyval * record) : list line :=
  if dict_contains item.1 source then []
  else [[V item.1; T ":"]; [T "> "; R item.2]].

(** The lines [entry] stand together in the output. *)
Definition reported (entry out : list line) : Prop :=
  ∃ before after, out = before ++ entry ++ after.

(** The line the batch applier prints for a record it has sent. *)
Definition applied_line (p : record) : line :=
  [T "    "; V (default PyNone (p !! "ParameterName")); T " = ";
   V (default PyNone (p !! "ParameterValue"))].

(** A computation that never ends with the exception [e]. *)
Definition never_raises {A} (e : exn) (m : M A) : Prop :=
  ∀ w w', m w ≠ (Raised e, w').

(** A computation whose remote calls, however it ends, are all describe
    calls. *)
Definition only_describes {A} (m : M A) : Prop :=
  ∀ w r w', m w = (r, w') →
    ∃ new, calls w' = calls w ++ new ∧ Forall (λ cr, is_describe cr.2) new.

(** A computation that ends, with a result or an exception, in every
    world: the fuel of its loops never runs out. *)
Definition terminates {A} (m : M A) : Prop :=
  ∀ w, (m w).1 ≠ Diverged.

(** The group names of one page of a describe_db_parameter_groups answer. *)
Definition listed_names (r : response) : list pyval :=
  omap (λ g : record, g !! "DBParameterGroupName")
    (default [] (DBParameterGroups r)).

(** A page of groups as the lister needs it: the list is there and every
    group has its name. *)
Definition well_listed (r : response) : Prop :=
  ∃ groups, DBParameterGroups r = Some groups
            ∧ Forall (λ g : record, is_Some (g !! "DBParameterGroupName")) groups.

(** What holds of the dictionary built from the records seen so far. *)
Definition indexed (key : string) (seen : list record) (d : pydict) : Prop :=
  NoDup d.*1
  ∧ (∀ k r, (k, r) ∈ d → r ∈ seen ∧ r !! key = Some k)
  ∧ (∀ r, r ∈ seen → ∃ k, r !! key = Some k ∧ k ∈ d.*1).

(** ** Sample data *)

Definition sample_world (rs : list reply) : world :=
  World ∅ ["rds_param_group_util.py"] rs [] [].

Definition parameter (name value : string) (modifiable : bool) : record :=
  {[ "ParameterName" := PyStr name;
     "ParameterValue" := PyStr value;
     "IsModifiable" := PyBool modifiable ]}.

Definition valueless_parameter (name : string) (modifiable : bool) : record :=
  {[ "ParameterName" := PyStr name;
     "IsModifiable" := PyBool modifiable ]}.

Definition page (ps : list record) (marker : option string) : response :=
  Response None (Some ps) marker.

Definition group_listing (names : list string) (marker : option string)
    : response :=
  Response (Some ((λ n, {[ "DBParameterGroupName" := PyStr n ]}) <$> names))
    None marker.

Definition group_summary (name family : string) : response :=
  Response
    (Some [ {[ "DBParameterGroupName" := PyStr name;
               "DBParameterGroupFamily" := PyStr family;
               "Description" := PyStr "sample";
               "DBParameterGroupArn" := PyStr ("arn:aws:rds:pg:" +:+ name) ]} ])
    None None.

Definition accepted : response := Response None None None.

Definition east : client := Client "us-east-1".
Definition west : client := Client "us-west-2".

Definition twenty_one_parameters : list record :=
  replicate 21 (parameter "max_connections" "100" true).

Definition valueless_then_twenty : list record :=
  valueless_parameter "character_set_server" true
  :: replicate 20 (parameter "max_connections" "100" true).

Definition source_xy : list record :=
  [parameter "x" "1" true; parameter "y" "2" true].

Definition dest_yz : list record :=
  [parameter "y" "3" true; parameter "z" "4" true].

Definition source_valueless : list record :=
  [valueless_parameter "x" true; valueless_parameter "y" true].

Definition dest_valued_y : list record := [parameter "y" "3" true].

Definition abc : list record :=
  [parameter "a" "5" true; parameter "b" "6" false; valueless_parameter "c" true].

Definition two_pages : list reply :=
  [Answer (page [parameter "a" "5" true] (Some "cursor-1"));
   Answer (page [parameter "b" "6" false] None)].

Definition copy_script : list reply :=
  [Answer (group_summary "pg-a" "mysql8.0");
   Answer (page abc None);
   Answer (group_listing ["default.mysql8.0"; "pg-b"] None)].

(** What the service answers while two groups are fetched for comparison. *)
Definition compare_script (src dst : list record) : list reply :=
  [Answer (group_summary "pg-a" "mysql8.0");
   Answer (page src None);
   Answer (group_summary "pg-b" "mysql8.0");
   Answer (page dst None)].

(** The world once they are fetched, with [rest] still to be answered. *)
Definition compare_fetched (rest : list reply) : world :=
  World ∅ ["rds_param_group_util.py"] rest
    [(east, describe_db_parameter_groups (Some "pg-a") None);
     (east, describe_db_parameters "pg-a" None);
     (west, describe_db_parameter_groups (Some "pg-b") None);
     (west, describe_db_parameters "pg-b" None)]
    [].

(** The same world with AWS_DEFAULT_REGION set. *)
Definition with_default_region (region : string) (w : world) : world :=
  World (<["AWS_DEFAULT_REGION" := region]> (environ w))
    (argv w) (replies w) (calls w) (stdout w).

(** [-a compare -p pg-a -s us-east-1 -d pg-b] *)
Definition compare_with_explicit_region : cmdline :=
  Cmdline (Some "compare") (Some "pg-a") (Some "us-east-1") (Some "pg-b") None.

(** ** Vocabulary of the further properties *)

(** The records of a list that have the field [key], each under its own
    value of that field, in list order. *)
Definition keyed_by (key : string) (l : list record) : pydict :=
  omap (λ r : record, (λ n, (n, r)) <$> r !! key) l.

(** A computation all of whose remote calls, however it ends, satisfy
    [P]. *)
Definition only_calls {A} (P : client * request → Prop) (m : M A) : Prop :=
  ∀ w r w', m w = (r, w') →
    ∃ new, calls w' = calls w ++ new ∧ Forall P new.

(** * Verification *)

(** ** Running the monad *)

Lemma bind_run {A B} (m : M A) (f : A → M B) w :
  (m ≫= f) w = match m w with
               | (Ok a, w') => f a w'
               | (Raised e, w') => (Raised e, w')
               | (Diverged, w') => (Diverged, w')
               end.
Proof. reflexivity. Qed.

Lemma bind_ok {A B} (m : M A) (f : A → M B) w a w' :
  m w = (Ok a, w') → (m ≫= f) w = f a w'.
Proof. intros H. by rewrite bind_run, H. Qed.

Lemma for_each_append {A} (xs acc : list A) w :
  for_each xs (λ p acc, mret (acc ++ [p])) acc w = (Ok (acc ++ xs), w).
Proof.
  revert acc. induction xs as [|x xs IH]; intros acc; cbn.
  - by rewrite app_nil_r.
  - rewrite bind_run. cbn. rewrite IH. by rewrite <- app_assoc.
Qed.

(** ** Chunking *)

Lemma ceil_div_spec n b k :
  0 < b → ceil_div n b = k ↔ (k - 1) * b < n ≤ k * b.
Proof.
  intros Hb. unfold ceil_div. split.
  - intros <-. pose proof (Z.div_mod (n + b - 1) b ltac:(lia)).
    pose proof (Z.mod_pos_bound (n + b - 1) b Hb). nia.
  - intros [H1 H2]. symmetry. apply (Z.div_unique _ _ _ (n + b - 1 - b * k)); lia.
Qed.

Lemma py_slice_chunk {A} (l : list A) (s : nat) (b : Z) :
  0 < b → (s < length l)%nat →
  py_slice l (Z.of_nat s) (Z.of_nat s + b) = take (Z.to_nat b) (drop s l).
Proof.
  intros Hb Hs. unfold py_slice, slice_bound.
  destruct (Z.ltb_spec (Z.of_nat s) 0) as [?|_]; [lia|].
  destruct (Z.ltb_spec (Z.of_nat s + b) 0) as [?|_]; [lia|].
  rewrite (Z.min_l (Z.of_nat s)) by lia. rewrite Nat2Z.id.
  destruct (Z.min_spec (Z.of_nat s + b) (Z.of_nat (length l))) as [[? ->]|[? ->]].
  - f_equal. lia.
  - rewrite !take_ge; [done| |]; rewrite length_drop; lia.
Qed.

Lemma chunks_from_spec {A} (l : list A) (b : Z) :
  0 < b → ∀ fuel (s : nat), (length l - s ≤ fuel)%nat →
  ∃ cs, chunks_from fuel l b (Z.of_nat s) = Some cs
        ∧ concat cs = drop s l
        ∧ Forall (λ c, Z.of_nat (length c) ≤ b) cs
        ∧ Z.of_nat (length cs) = ceil_div (Z.of_nat (length l - s)) b.
Proof.
  intros Hb. induction fuel as [|fuel IH]; intros s Hfuel.
  - exists []. cbn. destruct (Z.ltb_spec (Z.of_nat s) (Z.of_nat (length l))); [lia|].
    rewrite drop_ge by lia. repeat split; [constructor|].
    symmetry. apply ceil_div_spec; lia.
  - cbn. destruct (Z.ltb_spec (Z.of_nat s) (Z.of_nat (length l))) as [Hlt|Hge].
    + destruct (IH (s + Z.to_nat b)%nat ltac:(lia)) as (cs & Hcs & Hcat & Hlen & Hnum).
      replace (Z.of_nat s + b) with (Z.of_nat (s + Z.to_nat b)) by lia.
      rewrite Hcs. cbn. eexists; split; [reflexivity|].
      replace (Z.of_nat (s + Z.to_nat b)) with (Z.of_nat s + b) by lia.
      rewrite py_slice_chunk by lia. repeat split.
      * cbn. rewrite Hcat, <- drop_drop. apply take_drop.
      * constructor; [|done]. rewrite length_take. pose proof (Nat.le_min_l (Z.to_nat b) (length (drop s l))). lia.
      * cbn [length]. rewrite Nat2Z.inj_succ, Hnum.
        symmetry. apply ceil_div_spec; [done|].
        destruct (decide (length l - (s + Z.to_nat b) = 0)%nat) as [Hz|Hnz].
        -- rewrite Hz. replace (ceil_div (Z.of_nat 0) b) with 0
             by (symmetry; apply ceil_div_spec; lia). lia.
        -- pose proof (proj1 (ceil_div_spec (Z.of_nat (length l - (s + Z.to_nat b))) b _ Hb) eq_refl).
           nia.
    + exists []. rewrite drop_ge by lia. repeat split; [constructor|].
      cbn [length]. symmetry. apply ceil_div_spec; lia.
Qed.

Lemma chunks_run {A} (L : list A) (B : Z) :
  0 < B →
  ∃ cs, chunks L B = Some cs
        ∧ concat cs = L
        ∧ Forall (λ c, Z.of_nat (length c) ≤ B) cs
        ∧ Z.of_nat (length cs) = ceil_div (Z.of_nat (length L)) B.
Proof.
  intros HB. destruct (chunks_from_spec L B HB (length L) 0%nat ltac:(lia))
    as (cs & Hcs & Hcat & Hlen & Hnum).
  exists cs. rewrite Nat.sub_0_r in Hnum. done.
Qed.

(** C3: for every list [L] and every batch size [B > 0], the chunking
    function ends and yields chunks whose concatenation, in order, is [L],
    each of length at most [B], and [ceil (len L / B)] of them. *)
Theorem chunks_partition {A} (L : list A) (B : Z) :
  0 < B →
  ∃ cs, chunks L B = Some cs
        ∧ concat cs = L
        ∧ Forall (λ c, Z.of_nat (length c) ≤ B) cs
        ∧ Z.of_nat (length cs) = ceil_div (Z.of_nat (length L)) B.
Proof. apply chunks_run. Qed.

Lemma chunks_partition_witness :
  ∃ cs, chunks ["a"; "b"; "c"; "d"; "e"] 2 = Some cs
        ∧ concat cs = ["a"; "b"; "c"; "d"; "e"]
        ∧ Forall (λ c, Z.of_nat (length c) ≤ 2) cs
        ∧ Z.of_nat (length cs) = ceil_div 5 2.
Proof. apply (chunks_partition ["a"; "b"; "c"; "d"; "e"] 2). lia. Defined.

Example chunks_five_by_two :
  chunks ["a"; "b"; "c"; "d"; "e"] 2 = Some [["a"; "b"]; ["c"; "d"]; ["e"]].
Proof. reflexivity. Qed.

Example chunks_of_nothing : chunks ([] : list string) 20 = Some [].
Proof. reflexivity. Qed.

(** A size that does not advance the start keeps the generator going for
    ever: this is the only way for the fuel to run out. *)
Lemma chunks_from_never_ends {A} (l : list A) (b : Z) :
  b ≤ 0 → ∀ fuel start, start < Z.of_nat (length l) →
  chunks_from fuel l b start = None.
Proof.
  intros Hb. induction fuel as [|fuel IH]; intros start Hstart; cbn.
  - destruct (Z.ltb_spec start (Z.of_nat (length l))); [done|lia].
  - destruct (Z.ltb_spec start (Z.of_nat (length l))); [|lia].
    by rewrite IH by lia.
Qed.

Lemma chunks_never_ends {A} (l : list A) (b : Z) :
  b ≤ 0 → l ≠ [] → chunks l b = None.
Proof.
  intros Hb Hl. apply chunks_from_never_ends; [done|].
  destruct l; [done|]. cbn [length]. lia.
Qed.

Example chunks_zero_size_never_ends : chunks ["a"] 0 = None.
Proof. reflexivity. Qed.

(** ** Pagination *)

Lemma return_all_parameters_loop_run c g pages :
  ∀ last rest token acc w fuel,
    token ≠ TokenFalse →
    Forall (λ r, is_Some (Marker r)) pages →
    Marker last = None →
    Forall (λ r, is_Some (Parameters r)) (pages ++ [last]) →
    (length pages + 2 ≤ fuel)%nat →
    replies w = (Answer <$> (pages ++ [last])) ++ rest →
    return_all_parameters_loop fuel c g token acc w =
      (Ok (acc ++ concat (page_records <$> (pages ++ [last]))),
       World (environ w) (argv w) rest
         (calls w ++ ((λ m, (c, describe_db_parameters g m)) <$>
                        (token_marker token :: (Marker <$> pages))))
         (stdout w)).
Proof.
  induction pages as [|page pages IH];
    intros last rest token acc w fuel Htok Hmark Hlast Hparams Hfuel Hrep.
  - destruct fuel as [|[|fuel]]; [cbn in Hfuel; lia..|].
    apply Forall_singleton in Hparams as [ps Hps].
    assert (Hcall : ∀ req, call c req w =
      (Ok last, World (environ w) (argv w) rest (calls w ++ [(c, req)]) (stdout w))).
    { intros req. unfold call. by rewrite Hrep. }
    cbn [return_all_parameters_loop].
    destruct token as [| |m]; [|done|];
      rewrite (bind_ok _ _ _ _ _ (Hcall _)); rewrite Hps; cbn [field];
      rewrite bind_run; cbn; rewrite bind_run, for_each_append;
      unfold next_token; rewrite Hlast; cbn;
      unfold page_records; rewrite Hps; cbn; by rewrite app_nil_r.
  - destruct fuel as [|fuel]; [cbn in Hfuel; lia|].
    apply Forall_cons in Hmark as [[m' Hm'] Hmark].
    cbn [app] in Hparams. apply Forall_cons in Hparams as [[ps Hps] Hparams].
    assert (Hcall : ∀ req, call c req w =
      (Ok page, World (environ w) (argv w) ((Answer <$> (pages ++ [last])) ++ rest)
                  (calls w ++ [(c, req)]) (stdout w))).
    { intros req. unfold call. by rewrite Hrep. }
    cbn [return_all_parameters_loop].
    destruct token as [| |m]; [|done|];
      rewrite (bind_ok _ _ _ _ _ (Hcall _)); rewrite Hps; cbn [field];
      rewrite bind_run; cbn; rewrite bind_run, for_each_append;
      unfold next_token; rewrite Hm';
      (erewrite IH; [|done|done|done|done|cbn in *; lia|done]);
      cbn; unfold page_records at 2; rewrite Hps; cbn;
      by rewrite <- !app_assoc.
Qed.

(** C7: for every sequence of answers of which all but the last carry a
    cursor and the last carries none, each with its "Parameters" list, the
    parameter fetcher returns the concatenation of their records in answer
    order, having issued one request per answer: the first without a
    cursor, each next one with the cursor of the answer before; what the
    service would answer next is left untouched. *)
Theorem fetch_follows_cursors c g (pages : list response) (last : response)
    (rest : list reply) (w : world) :
  Forall (λ r, is_Some (Marker r)) pages →
  Marker last = None →
  Forall (λ r, is_Some (Parameters r)) (pages ++ [last]) →
  replies w = (Answer <$> (pages ++ [last])) ++ rest →
  return_all_parameters_from_parameter_group c g w =
    (Ok (concat (page_records <$> (pages ++ [last]))),
     World (environ w) (argv w) rest
       (calls w ++ ((λ m, (c, describe_db_parameters g m)) <$>
                      (None :: (Marker <$> pages))))
       (stdout w)).
Proof.
  intros Hmark Hlast Hparams Hrep.
  unfold return_all_parameters_from_parameter_group.
  rewrite (return_all_parameters_loop_run c g pages last rest TokenNone []);
    try done.
  rewrite Hrep, length_app, length_fmap, length_app. cbn. lia.
Qed.

Lemma fetch_follows_cursors_witness :
  return_all_parameters_from_parameter_group east "pg-a"
    (sample_world two_pages) =
  (Ok [parameter "a" "5" true; parameter "b" "6" false],
   World ∅ ["rds_param_group_util.py"] []
     [(east, describe_db_parameters "pg-a" None);
      (east, describe_db_parameters "pg-a" (Some "cursor-1"))]
     []).
Proof.
  apply (fetch_follows_cursors east "pg-a"
           [page [parameter "a" "5" true] (Some "cursor-1")]
           (page [parameter "b" "6" false] None) []
           (sample_world two_pages)).
  - repeat constructor. by eexists.
  - reflexivity.
  - repeat constructor; by eexists.
  - reflexivity.
Defined.

(** An answer without its "Parameters" list stops the fetch. *)
Example fetch_page_without_parameters :
  (return_all_parameters_from_parameter_group east "pg-a"
     (sample_world [Answer accepted])).1 = Raised (KeyError (PyStr "Parameters")).
Proof. reflexivity. Qed.

(** A service that runs out of answers while cursors keep coming. *)
Example fetch_cursor_without_next_page :
  (return_all_parameters_from_parameter_group east "pg-a"
     (sample_world [Answer (page [] (Some "cursor-1"))])).1 = Raised StopIteration.
Proof. reflexivity. Qed.

(** ** The modifiable filter *)

Lemma filter_loop_run (ps : list record) :
  ∀ acc w,
    Forall (λ p, is_Some (p !! "IsModifiable")) ps →
    for_each ps (λ p parameters_to_return,
      is_modifiable ← getitem p "IsModifiable";
      if truthy is_modifiable
      then mret (append_if_value_present parameters_to_return p)
      else mret parameters_to_return) acc w =
    (Ok (acc ++ filter (λ p, is_modifiable p && has_field "ParameterValue" p) ps), w).
Proof.
  induction ps as [|p ps IH]; intros acc w Hflag; cbn [for_each].
  - cbn. by rewrite app_nil_r.
  - apply Forall_cons in Hflag as [[v Hv] Hflag].
    assert (Hm : is_modifiable p = truthy v)
      by (unfold is_modifiable; by rewrite Hv).
    rewrite bind_run. unfold getitem at 1. rewrite Hv. rewrite bind_run.
    cbn [mret M_ret]. unfold append_if_value_present.
    destruct (truthy v) eqn:Ht; [destruct (has_field "ParameterValue" p) eqn:Hf|].
    + rewrite filter_cons_True by (by rewrite Hm, Hf).
      cbn. rewrite IH by done. by rewrite <- app_assoc.
    + rewrite filter_cons_False by (rewrite Hm, Hf; cbn; tauto).
      cbn. by rewrite IH.
    + rewrite filter_cons_False by (rewrite Hm; cbn; tauto).
      cbn. by rewrite IH.
Qed.

(** C8: for every fetched collection whose records all carry the
    "IsModifiable" flag, the filter returns exactly the records whose flag
    is true and that have a "ParameterValue" field, in the order of the
    input. *)
Theorem modifiable_filter_exact c g (w w' : world) (all_parameters : list record) :
  return_all_parameters_from_parameter_group c g w = (Ok all_parameters, w') →
  Forall (λ p, is_Some (p !! "IsModifiable")) all_parameters →
  return_all_modifiable_parameters_with_value_from_parameter_group c g w =
    (Ok (filter (λ p, is_modifiable p && has_field "ParameterValue" p)
           all_parameters), w').
Proof.
  intros Hfetch Hflag.
  unfold return_all_modifiable_parameters_with_value_from_parameter_group.
  rewrite (bind_ok _ _ _ _ _ Hfetch). by rewrite filter_loop_run.
Qed.

Lemma modifiable_filter_exact_witness :
  return_all_modifiable_parameters_with_value_from_parameter_group east "pg-a"
    (sample_world [Answer (page abc None)]) =
  (Ok [parameter "a" "5" true],
   World ∅ ["rds_param_group_util.py"] []
     [(east, describe_db_parameters "pg-a" None)] []).
Proof.
  apply (modifiable_filter_exact east "pg-a"
           (sample_world [Answer (page abc None)])
           (World ∅ ["rds_param_group_util.py"] []
              [(east, describe_db_parameters "pg-a" None)] [])
           abc).
  - reflexivity.
  - repeat constructor; by eexists.
Defined.

(** A value that is there but is [None] counts as a value: only the key
    is looked at. *)
Example modifiable_filter_keeps_none_value :
  (return_all_modifiable_parameters_with_value_from_parameter_group east "pg-a"
     (sample_world
        [Answer (page [ {[ "ParameterName" := PyStr "c";
                           "ParameterValue" := PyNone;
                           "IsModifiable" := PyBool true ]} ] None)])).1 =
  Ok [ {[ "ParameterName" := PyStr "c";
          "ParameterValue" := PyNone;
          "IsModifiable" := PyBool true ]} ].
Proof. reflexivity. Qed.

(** ** Printing *)

Lemma print_run l w : print l w = (Ok tt, add_out w [l]).
Proof. reflexivity. Qed.

Lemma add_out_add_out w a b : add_out (add_out w a) b = add_out w (a ++ b).
Proof. unfold add_out. cbn. by rewrite app_assoc. Qed.

Lemma add_out_nil w : add_out w [] = w.
Proof. destruct w. unfold add_out. cbn. by rewrite app_nil_r. Qed.

Ltac mrun :=
  repeat first
    [ rewrite bind_run
    | rewrite print_run
    | progress cbn [mret M_ret raise] ].

(** ** Keyed dictionaries *)

Lemma dict_get_None k (d : pydict) : dict_get k d = None ↔ k ∉ d.*1.
Proof.
  induction d as [|[k' v] d IH]; cbn.
  - split; [intros _; apply not_elem_of_nil|done].
  - rewrite not_elem_of_cons. destruct (decide (k = k')) as [->|Hne].
    + split; [done|]. intros [? _]. done.
    + rewrite IH. tauto.
Qed.

Lemma dict_get_elem k r (d : pydict) : dict_get k d = Some r → (k, r) ∈ d.
Proof.
  induction d as [|[k' v] d IH]; cbn; [done|].
  destruct (decide (k = k')) as [->|]; [intros [= ->]; left|right; auto].
Qed.

Lemma dict_get_NoDup k r (d : pydict) :
  NoDup d.*1 → (k, r) ∈ d → dict_get k d = Some r.
Proof.
  induction d as [|[k' v] d IH]; cbn; [by intros _ ?%elem_of_nil|].
  intros [Hk Hd]%NoDup_cons [[= -> ->]|Hin]%elem_of_cons.
  - by rewrite decide_True.
  - rewrite decide_False; [auto|]. intros ->. apply Hk.
    apply list_elem_of_fmap. by exists (k', r).
Qed.

Lemma dict_contains_true k r (d : pydict) :
  dict_get k d = Some r → dict_contains k d = true.
Proof.
  intros H. apply bool_decide_eq_true. apply dict_get_elem in H.
  apply list_elem_of_fmap. by exists (k, r).
Qed.

Lemma dict_contains_false k (d : pydict) :
  dict_get k d = None → dict_contains k d = false.
Proof. intros H. apply bool_decide_eq_false. by apply dict_get_None. Qed.

Lemma dict_get_del_ne k k' (d : pydict) :
  k' ≠ k → dict_get k' (dict_del k d) = dict_get k' d.
Proof.
  intros Hne. unfold dict_del. induction d as [|[k0 v] d IH]; [done|].
  destruct (decide (k0 = k)) as [->|Hk0].
  - rewrite filter_cons_False by (cbn; tauto). cbn. by rewrite decide_False.
  - rewrite filter_cons_True by done. cbn. by rewrite IH.
Qed.

Lemma dict_set_keys k v (d : pydict) :
  (dict_set k v d).*1 = if decide (k ∈ d.*1) then d.*1 else d.*1 ++ [k].
Proof.
  induction d as [|[k' v'] d IH]; cbn.
  - rewrite decide_False; [done|apply not_elem_of_nil].
  - destruct (decide (k = k')) as [->|Hne]; cbn.
    + rewrite decide_True; [done|left].
    + rewrite IH. destruct (decide (k ∈ d.*1)) as [Hin|Hnin].
      * rewrite decide_True; [done|by right].
      * rewrite decide_False; [done|]. by intros [?|?]%elem_of_cons.
Qed.

Lemma dict_set_NoDup k v (d : pydict) : NoDup d.*1 → NoDup (dict_set k v d).*1.
Proof.
  intros Hd. rewrite dict_set_keys. case_decide; [done|].
  apply NoDup_app. split_and!; [done| |apply NoDup_singleton].
  intros x Hx ->%list_elem_of_singleton. done.
Qed.

Lemma dict_set_elem k v (d : pydict) k' v' :
  (k', v') ∈ dict_set k v d → (k', v') = (k, v) ∨ (k', v') ∈ d.
Proof.
  induction d as [|[k0 v0] d IH]; cbn.
  - intros ?%list_elem_of_singleton. by left.
  - destruct (decide (k = k0)) as [->|Hne].
    + intros [?|?]%elem_of_cons; [by left|right; by right].
    + intros [->|?]%elem_of_cons; [right; by left|].
      destruct IH as [?|?]; [done|by left|right; by right].
Qed.

Lemma dict_set_key_in k v (d : pydict) k' :
  k' = k ∨ k' ∈ d.*1 → k' ∈ (dict_set k v d).*1.
Proof.
  rewrite dict_set_keys. case_decide as Hin; intros [->|H]; [done|done| |].
  - apply elem_of_app. right. apply list_elem_of_singleton. done.
  - apply elem_of_app. by left.
Qed.

(** ** Reindexing *)

Lemma change_list_to_dict_loop key (todo : list record) :
  ∀ seen acc, ∃ res,
    (∀ w, for_each todo (λ each_obj_in_list dict_to_export,
        if dict_contains (PyStr key) dict_to_export
        then raise (Exception "This key name is not unique.")
        else
          k ← getitem each_obj_in_list key;
          mret (dict_set k each_obj_in_list dict_to_export)) acc w = (res, w))
    ∧ (indexed key seen acc → ∀ d, res = Ok d → indexed key (seen ++ todo) d).
Proof.
  induction todo as [|x todo IH]; intros seen acc.
  - exists (Ok acc). split; [done|]. intros Hacc d [= <-]. by rewrite app_nil_r.
  - cbn [for_each]. destruct (dict_contains (PyStr key) acc) eqn:Hc.
    { exists (Raised (Exception "This key name is not unique.")). split; [done|done]. }
    destruct (x !! key) as [k|] eqn:Hk.
    + destruct (IH (seen ++ [x]) (dict_set k x acc)) as (res & Hrun & Hinv).
      exists res. split.
      * intros w. mrun. unfold getitem. rewrite Hk. mrun. apply Hrun.
      * intros (Hnd & Hel & Hkeys) d Hd. rewrite (assoc_L _ seen [x] todo : seen ++ x :: todo = (seen ++ [x]) ++ todo).
        apply Hinv; [|done]. split_and!.
        -- by apply dict_set_NoDup.
        -- intros k' r' [[= -> ->]|Hin]%dict_set_elem.
           ++ split; [|done]. apply elem_of_app. right. by left.
           ++ destruct (Hel _ _ Hin). split; [|done]. apply elem_of_app. by left.
        -- intros r [Hr|Hr%list_elem_of_singleton]%elem_of_app.
           ++ destruct (Hkeys _ Hr) as (k' & ? & ?). exists k'. split; [done|].
              apply dict_set_key_in. by right.
           ++ subst r. exists k. split; [done|]. apply dict_set_key_in. by left.
    + exists (Raised (KeyError (PyStr key))). split; [|done].
      intros w. mrun. unfold getitem. rewrite Hk. by mrun.
Qed.

(** Reindexing neither reads nor changes the world. *)
Lemma change_list_to_dict_pure l key :
  ∃ res, ∀ w, change_list_to_dict l key w = (res, w).
Proof.
  destruct (change_list_to_dict_loop key l [] []) as (res & Hrun & _). eauto.
Qed.

Lemma change_list_to_dict_run l key w0 d w :
  (change_list_to_dict l key w0).1 = Ok d → change_list_to_dict l key w = (Ok d, w).
Proof.
  destruct (change_list_to_dict_pure l key) as (res & Hrun).
  rewrite !Hrun. by intros [= ->].
Qed.

Lemma change_list_to_dict_indexed l key w0 d :
  (change_list_to_dict l key w0).1 = Ok d → indexed key l d.
Proof.
  destruct (change_list_to_dict_loop key l [] []) as (res & Hrun & Hinv).
  unfold change_list_to_dict. rewrite Hrun. cbn. intros ->.
  apply (Hinv ltac:(split_and!; [constructor|by intros ? ? ?%elem_of_nil|by intros ? ?%elem_of_nil]) d eq_refl).
Qed.

(** ** The two passes of the comparison *)

Lemma differs_del_ne dest n item :
  item.1 ≠ n → differs (dict_del n dest) item = differs dest item.
Proof. intros H. unfold differs. by rewrite dict_get_del_ne. Qed.

Lemma source_entry_del_ne dest n item :
  item.1 ≠ n → source_entry (dict_del n dest) item = source_entry dest item.
Proof. intros H. unfold source_entry. by rewrite dict_get_del_ne. Qed.

Lemma filter_differs_del dest n (items : pydict) :
  n ∉ items.*1 →
  filter (differs (dict_del n dest)) items = filter (differs dest) items.
Proof.
  intros Hn. induction items as [|item items IH]; [done|].
  apply not_elem_of_cons in Hn as [Hne Hn].
  rewrite !filter_cons, differs_del_ne, IH by done. done.
Qed.

Lemma source_entries_del dest n (items : pydict) :
  n ∉ items.*1 →
  source_entry (dict_del n dest) <$> items = source_entry dest <$> items.
Proof.
  intros Hn. induction items as [|item items IH]; [done|].
  apply not_elem_of_cons in Hn as [Hne Hn].
  cbn. by rewrite source_entry_del_ne, IH.
Qed.

Lemma filter_none_deleted (d : pydict) :
  filter (λ kv, kv.1 ∉ ([] : list pyval)) d = d.
Proof.
  induction d as [|kv d IH]; [done|].
  rewrite filter_cons_True by apply not_elem_of_nil. by rewrite IH.
Qed.

Lemma compare_source_pass_from (source_parameters : pydict) (items : pydict) :
  ∀ diff_list dest_parameters w,
    NoDup items.*1 →
    (∀ k v, (k, v) ∈ items → dict_get k source_parameters = Some v) →
    ∃ deleted : list pyval,
      (∀ n, n ∈ deleted → n ∈ items.*1)
      ∧ for_each items (compare_source_step source_parameters)
          (diff_list, dest_parameters) w =
        (Ok (diff_list ++
               filter (λ r, has_field "ParameterValue" r)
                 (filter (differs dest_parameters) items).*2,
             filter (λ kv, kv.1 ∉ deleted) dest_parameters),
         add_out w (concat (source_entry dest_parameters <$> items))).
Proof.
  induction items as [|[n v] items IH]; intros diff dest w Hnd Hsrc.
  - exists []. split; [by intros ? ?%elem_of_nil|]. cbn.
    by rewrite app_nil_r, add_out_nil, filter_none_deleted.
  - cbn in Hnd. apply NoDup_cons in Hnd as [Hn Hnd].
    assert (Hv : dict_get n source_parameters = Some v) by (apply Hsrc; left).
    assert (Hsrc' : ∀ k v, (k, v) ∈ items → dict_get k source_parameters = Some v)
      by (intros; apply Hsrc; by right).
    cbn [for_each]. mrun. unfold compare_source_step at 1.
    destruct (dict_get n dest) as [d|] eqn:Hd.
    + rewrite (dict_contains_true _ _ _ Hd). cbn [negb].
      unfold dict_getitem. rewrite Hv, Hd. mrun.
      destruct (decide (v = d)) as [->|Hne].
      * rewrite bool_decide_eq_false_2 by tauto. mrun.
        destruct (IH diff dest w Hnd Hsrc') as (deleted & Hdel & ->).
        exists deleted. split; [intros; right; auto|].
        rewrite filter_cons_False.
        2:{ unfold differs. cbn. rewrite Hd. rewrite bool_decide_eq_false_2 by tauto. tauto. }
        cbn [fmap list_fmap concat]. unfold source_entry at 2. cbn [fst snd].
        rewrite Hd, bool_decide_eq_false_2 by tauto. done.
      * rewrite bool_decide_eq_true_2 by done. mrun.
        destruct (IH (append_if_value_present diff v) (dict_del n dest)
                    (add_out (add_out (add_out w [[V n; T ":"]]) [[T "< "; R v]]) [[T "> "; R d]])
                    Hnd Hsrc') as (deleted & Hdel & ->).
        exists (n :: deleted). split.
        { intros n' [->|?]%elem_of_cons; [left|right; auto]. }
        rewrite filter_differs_del, source_entries_del by done.
        rewrite filter_cons_True.
        2:{ unfold differs. cbn. rewrite Hd. by rewrite bool_decide_eq_true_2. }
        cbn [fmap list_fmap concat]. unfold source_entry at 2. cbn [fst snd].
        rewrite Hd, bool_decide_eq_true_2 by done.
        rewrite !add_out_add_out. do 3 f_equal.
        -- unfold append_if_value_present. rewrite filter_cons.
           destruct (has_field "ParameterValue" v) eqn:Hf.
           ++ rewrite decide_True by done. by rewrite <- app_assoc.
           ++ rewrite decide_False by (cbn; tauto). done.
        -- unfold dict_del. rewrite list_filter_filter. apply list_filter_iff.
           intros [k r]. cbn. rewrite not_elem_of_cons. tauto.
    + rewrite (dict_contains_false _ _ Hd). cbn [negb].
      unfold dict_getitem. rewrite Hv. mrun.
      destruct (IH (append_if_value_present diff v) dest
                  (add_out (add_out w [[V n; T ":"]]) [[T "< "; R v]])
                  Hnd Hsrc') as (deleted & Hdel & ->).
      exists deleted. split; [intros; right; auto|].
      rewrite filter_cons_True.
      2:{ unfold differs. cbn. by rewrite Hd. }
      cbn [fmap list_fmap concat]. unfold source_entry at 2. cbn [fst snd].
      rewrite Hd. rewrite !add_out_add_out. do 3 f_equal.
      unfold append_if_value_present. rewrite filter_cons.
      destruct (has_field "ParameterValue" v) eqn:Hf.
      * rewrite decide_True by done. by rewrite <- app_assoc.
      * rewrite decide_False by (cbn; tauto). done.
Qed.

Lemma compare_dest_pass_from (source_parameters dest_parameters items : pydict) :
  ∀ w,
    (∀ k v, (k, v) ∈ items → dict_get k dest_parameters = Some v) →
    for_each items (compare_dest_step source_parameters dest_parameters) tt w =
      (Ok tt, add_out w (concat (dest_entry source_parameters <$> items))).
Proof.
  induction items as [|[n v] items IH]; intros w Hdest.
  - cbn. by rewrite add_out_nil.
  - assert (Hv : dict_get n dest_parameters = Some v) by (apply Hdest; left).
    cbn [for_each]. mrun. unfold compare_dest_step at 1.
    cbn [fmap list_fmap concat]. unfold dest_entry at 1. cbn [fst snd].
    destruct (dict_contains n source_parameters); cbn [negb].
    + mrun. rewrite IH by (intros; apply Hdest; by right). done.
    + unfold dict_getitem. rewrite Hv. mrun.
      rewrite IH by (intros; apply Hdest; by right).
      by rewrite !add_out_add_out.
Qed.

Lemma filter_keys_NoDup (P : pyval * record → Prop) `{∀ x, Decision (P x)}
    (d : pydict) :
  NoDup d.*1 → NoDup (filter P d).*1.
Proof.
  induction d as [|kv d IH]; [done|]. intros Hnd. cbn in Hnd.
  apply NoDup_cons in Hnd as [Hk Hd].
  rewrite filter_cons. case_decide; [|auto]. cbn. apply NoDup_cons. split; [|auto].
  intros (kv' & Heq & [_ Hin]%list_elem_of_filter)%list_elem_of_fmap.
  apply Hk. apply list_elem_of_fmap. eauto.
Qed.

Lemma compare_collections_run (src dst : list record) (sd dd : pydict)
    (return_list : bool) (w0 w : world) :
  (change_list_to_dict src "ParameterName" w0).1 = Ok sd →
  (change_list_to_dict dst "ParameterName" w0).1 = Ok dd →
  ∃ deleted : list pyval,
    (∀ n, n ∈ deleted → n ∈ sd.*1)
    ∧ compare_collections src dst return_list w =
        (Ok (if return_list
             then Some (filter (λ r, has_field "ParameterValue" r)
                          (filter (differs dd) sd).*2)
             else None),
         add_out w
           (concat (source_entry dd <$> sd)
            ++ concat (dest_entry sd <$> filter (λ kv, kv.1 ∉ deleted) dd)
            ++ [[T ""]; [T ""]]
            ++ (if return_list then [] else [[T "Complete."]]))).
Proof.
  intros Hsd Hdd.
  destruct (change_list_to_dict_indexed _ _ _ _ Hsd) as (Hsnd & _ & _).
  destruct (change_list_to_dict_indexed _ _ _ _ Hdd) as (Hdnd & _ & _).
  destruct (compare_source_pass_from sd sd [] dd w Hsnd
              (λ k v, dict_get_NoDup k v sd Hsnd)) as (deleted & Hdel & Hpass).
  exists deleted. split; [done|].
  unfold compare_collections. mrun.
  rewrite (change_list_to_dict_run _ _ _ _ w Hsd). mrun.
  rewrite (change_list_to_dict_run _ _ _ _ w Hdd). mrun.
  unfold compare_source_pass. rewrite Hpass. mrun.
  unfold compare_dest_pass. rewrite compare_dest_pass_from.
  2:{ intros k v Hin. apply dict_get_NoDup; [|done]. by apply filter_keys_NoDup. }
  mrun. destruct return_list; cbn [bool_decide decide_rel]; mrun.
  - rewrite bool_decide_eq_false_2 by done. mrun.
    rewrite !add_out_add_out, app_nil_r. rewrite <- ?app_assoc. reflexivity.
  - rewrite bool_decide_eq_true_2 by done. mrun.
    rewrite !add_out_add_out. rewrite <- ?app_assoc. reflexivity.
Qed.

Lemma reported_in_concat {A} (f : A → list line) (items : list A) (x : A)
    (before after : list line) :
  x ∈ items → reported (f x) (before ++ concat (f <$> items) ++ after).
Proof.
  intros (l1 & l2 & ->)%list_elem_of_split.
  exists (before ++ concat (f <$> l1)), (concat (f <$> l2) ++ after).
  rewrite fmap_app, concat_app. cbn. by rewrite <- !app_assoc.
Qed.

Lemma compare_print_header_run sg dg sf sp df dp w :
  compare_print_header sg dg sf sp df dp w =
    (Ok tt, add_out w (header_lines sg dg sf sp df dp)).
Proof.
  unfold compare_print_header, header_lines. mrun.
  case_bool_decide; mrun; by rewrite !add_out_add_out.
Qed.

Lemma compare_rds_parameters_run sc sg dc dg (return_list : bool)
    (w w1 : world) sf df (src dst : list record) (sd dd : pydict) :
  compare_construct_variables sc sg dc dg w = (Ok (sf, src, df, dst), w1) →
  (change_list_to_dict src "ParameterName" w1).1 = Ok sd →
  (change_list_to_dict dst "ParameterName" w1).1 = Ok dd →
  ∃ deleted : list pyval,
    (∀ n, n ∈ deleted → n ∈ sd.*1)
    ∧ compare_rds_parameters sc sg dc dg return_list w =
        (Ok (if return_list
             then Some (filter (λ r, has_field "ParameterValue" r)
                          (filter (differs dd) sd).*2)
             else None),
         add_out w1
           ((header_lines sg dg sf src df dst
             ++ concat (source_entry dd <$> sd))
            ++ concat (dest_entry sd <$> filter (λ kv, kv.1 ∉ deleted) dd)
            ++ [[T ""]; [T ""]]
            ++ (if return_list then [] else [[T "Complete."]]))).
Proof.
  intros Hvars Hsd Hdd.
  destruct (compare_collections_run src dst sd dd return_list w1
              (add_out w1 (header_lines sg dg sf src df dst)) Hsd Hdd)
    as (deleted & Hdel & Hrun).
  exists deleted. split; [done|].
  unfold compare_rds_parameters. rewrite (bind_ok _ _ _ _ _ Hvars).
  rewrite bind_run, compare_print_header_run, Hrun.
  by rewrite add_out_add_out, <- app_assoc.
Qed.

(** ** The lister follows the same protocol *)

Lemma group_names_loop_run (groups : list record) :
  ∀ (acc : list pyval) w,
    Forall (λ g : record, is_Some (g !! "DBParameterGroupName")) groups →
    for_each groups (λ g groups_to_return,
      name ← getitem g "DBParameterGroupName";
      mret (groups_to_return ++ [name])) acc w =
    (Ok (acc ++ omap (λ g : record, g !! "DBParameterGroupName") groups), w).
Proof.
  induction groups as [|g groups IH]; intros acc w Hnames.
  - cbn. by rewrite app_nil_r.
  - apply Forall_cons in Hnames as [[n Hn] Hnames].
    cbn [for_each]. rewrite bind_run. cbv beta. unfold getitem at 1.
    rewrite Hn. mrun. rewrite IH by done. cbn [omap list_omap]. rewrite Hn.
    by rewrite <- app_assoc.
Qed.

Lemma return_parameter_groups_loop_run c pages :
  ∀ last rest token acc w fuel,
    token ≠ TokenFalse →
    Forall (λ r, is_Some (Marker r)) pages →
    Marker last = None →
    Forall well_listed (pages ++ [last]) →
    (length pages + 2 ≤ fuel)%nat →
    replies w = (Answer <$> (pages ++ [last])) ++ rest →
    return_parameter_groups_loop fuel c token acc w =
      (Ok (acc ++ concat (listed_names <$> (pages ++ [last]))),
       World (environ w) (argv w) rest
         (calls w ++ ((λ m, (c, describe_db_parameter_groups None m)) <$>
                        (token_marker token :: (Marker <$> pages))))
         (stdout w)).
Proof.
  induction pages as [|page pages IH];
    intros last rest token acc w fuel Htok Hmark Hlast Hlisted Hfuel Hrep.
  - destruct fuel as [|[|fuel]]; [cbn in Hfuel; lia..|].
    apply Forall_singleton in Hlisted as (gs & Hgs & Hnames).
    assert (Hcall : ∀ req, call c req w =
      (Ok last, World (environ w) (argv w) rest (calls w ++ [(c, req)]) (stdout w))).
    { intros req. unfold call. by rewrite Hrep. }
    cbn [return_parameter_groups_loop].
    destruct token as [| |m]; [|done|];
      rewrite (bind_ok _ _ _ _ _ (Hcall _)); rewrite Hgs; cbn [field];
      rewrite bind_run; cbn [mret M_ret]; rewrite bind_run,
        group_names_loop_run by done;
      unfold next_token; rewrite Hlast; cbn;
      unfold listed_names; rewrite Hgs; cbn; by rewrite app_nil_r.
  - destruct fuel as [|fuel]; [cbn in Hfuel; lia|].
    apply Forall_cons in Hmark as [[m' Hm'] Hmark].
    cbn [app] in Hlisted.
    apply Forall_cons in Hlisted as [(gs & Hgs & Hnames) Hlisted].
    assert (Hcall : ∀ req, call c req w =
      (Ok page, World (environ w) (argv w) ((Answer <$> (pages ++ [last])) ++ rest)
                  (calls w ++ [(c, req)]) (stdout w))).
    { intros req. unfold call. by rewrite Hrep. }
    cbn [return_parameter_groups_loop].
    destruct token as [| |m]; [|done|];
      rewrite (bind_ok _ _ _ _ _ (Hcall _)); rewrite Hgs; cbn [field];
      rewrite bind_run; cbn [mret M_ret]; rewrite bind_run,
        group_names_loop_run by done;
      unfold next_token; rewrite Hm';
      (erewrite IH; [|done|done|done|done|cbn in *; lia|done]);
      cbn; unfold listed_names at 2; rewrite Hgs, ?Hm'; cbn;
      by rewrite <- !app_assoc.
Qed.

(** The lister returns the names of all pages in answer order, asking for
    the first page without a cursor and for each next page with the cursor
    of the page before. *)
Lemma return_parameter_groups_run c (pages : list response) (last : response)
    (rest : list reply) (w : world) :
  Forall (λ r, is_Some (Marker r)) pages →
  Marker last = None →
  Forall well_listed (pages ++ [last]) →
  replies w = (Answer <$> (pages ++ [last])) ++ rest →
  return_parameter_groups c w =
    (Ok (concat (listed_names <$> (pages ++ [last]))),
     World (environ w) (argv w) rest
       (calls w ++ ((λ m, (c, describe_db_parameter_groups None m)) <$>
                      (None :: (Marker <$> pages))))
       (stdout w)).
Proof.
  intros Hmark Hlast Hlisted Hrep. unfold return_parameter_groups.
  rewrite (return_parameter_groups_loop_run c pages last rest TokenNone []);
    try done.
  rewrite Hrep, length_app, length_fmap, length_app. cbn. lia.
Qed.

Example list_two_pages :
  return_parameter_groups west
    (sample_world [Answer (group_listing ["default.mysql8.0"] (Some "cursor-1"));
                   Answer (group_listing ["pg-b"] None)]) =
  (Ok [PyStr "default.mysql8.0"; PyStr "pg-b"],
   World ∅ ["rds_param_group_util.py"] []
     [(west, describe_db_parameter_groups None None);
      (west, describe_db_parameter_groups None (Some "cursor-1"))]
     []).
Proof. reflexivity. Qed.

(** ** What the uniqueness check of the reindexing really checks *)

(** The check looks for the string [key] itself among the names seen so
    far, not for the name of the record at hand: records that all have a
    name other than [key] are reindexed without an error, duplicates or
    not. *)
Lemma change_list_to_dict_accepts (l : list record) (key : string) :
  Forall (λ r, ∃ n, r !! key = Some n ∧ n ≠ PyStr key) l →
  ∃ d, ∀ w, change_list_to_dict l key w = (Ok d, w).
Proof.
  unfold change_list_to_dict. intros Hl.
  enough (Hloop : ∀ acc : pydict, PyStr key ∉ acc.*1 →
    ∃ d, ∀ w, for_each l (λ each_obj_in_list dict_to_export,
        if dict_contains (PyStr key) dict_to_export
        then raise (Exception "This key name is not unique.")
        else
          k ← getitem each_obj_in_list key;
          mret (dict_set k each_obj_in_list dict_to_export)) acc w = (Ok d, w))
    by (apply Hloop, not_elem_of_nil).
  induction l as [|r l IH]; intros acc Hacc.
  - by exists acc.
  - apply Forall_cons in Hl as [(n & Hn & Hne) Hl].
    destruct (IH Hl (dict_set n r acc)) as (d & Hd).
    { rewrite dict_set_keys. case_decide; [done|].
      intros [?|?%list_elem_of_singleton]%elem_of_app; [done|]. by subst. }
    exists d. intros w. cbn [for_each]. unfold dict_contains, dict_keys.
    rewrite bool_decide_eq_false_2 by done.
    mrun. unfold getitem. rewrite Hn. mrun. apply Hd.
Qed.

(** C1: the code at two inputs.  Two records named max_connections are
    reindexed without an error into a mapping of one entry, the later
    record; and two records with different names, the first of them named
    "ParameterName", raise the exception. *)
Theorem change_list_to_dict_misses_duplicates :
  change_list_to_dict
    [parameter "max_connections" "100" true;
     parameter "max_connections" "200" true] "ParameterName" (sample_world []) =
    (Ok [(PyStr "max_connections", parameter "max_connections" "200" true)],
     sample_world [])
  ∧ change_list_to_dict
      [parameter "ParameterName" "1" true; parameter "max_connections" "100" true]
      "ParameterName" (sample_world []) =
    (Raised (Exception "This key name is not unique."), sample_world []).
Proof. split; reflexivity. Qed.

(** ** Start of the script *)

(** Without AWS_DEFAULT_REGION the script stops at line 62, whatever the
    command line says. *)
Lemma run_script_without_default (cl : cmdline) (w : world) :
  environ w !! "AWS_DEFAULT_REGION" = None →
  run_script cl w = (Raised (KeyError (PyStr "AWS_DEFAULT_REGION")), w).
Proof.
  intros Henv. unfold run_script. rewrite bind_run.
  unfold default_source_region. by rewrite Henv.
Qed.

(** C9: the code at [-a compare -p pg-a -s us-east-1 -d pg-b] with
    AWS_DEFAULT_REGION unset: the source region is given, and the script
    still ends with KeyError before anything else happens. *)
Theorem explicit_region_needs_ambient_default :
  environ (sample_world (compare_script source_xy dest_yz))
    !! "AWS_DEFAULT_REGION" = None
  ∧ run_script compare_with_explicit_region
      (sample_world (compare_script source_xy dest_yz)) =
    (Raised (KeyError (PyStr "AWS_DEFAULT_REGION")),
     sample_world (compare_script source_xy dest_yz)).
Proof. split; reflexivity. Qed.

(** With the variable set, the region given on the command line is the
    one used. *)
Example explicit_region_is_used :
  (run_script compare_with_explicit_region
     (with_default_region "eu-west-1"
        (sample_world (compare_script source_xy dest_yz)))).1 = Ok tt
  ∧ calls (run_script compare_with_explicit_region
             (with_default_region "eu-west-1"
                (sample_world (compare_script source_xy dest_yz)))).2 =
    [(east, describe_db_parameter_groups (Some "pg-a") None);
     (east, describe_db_parameters "pg-a" None);
     (east, describe_db_parameter_groups (Some "pg-b") None);
     (east, describe_db_parameters "pg-b" None)].
Proof. split; reflexivity. Qed.

(** With the variable set and no region given, the variable's value is
    used. *)
Example default_region_is_used :
  calls (run_script
           (Cmdline (Some "diff") (Some "pg-a") None (Some "pg-b") None)
           (with_default_region "eu-west-1"
              (sample_world (compare_script source_xy dest_yz)))).2 =
    [(Client "eu-west-1", describe_db_parameter_groups (Some "pg-a") None);
     (Client "eu-west-1", describe_db_parameters "pg-a" None);
     (Client "eu-west-1", describe_db_parameter_groups (Some "pg-b") None);
     (Client "eu-west-1", describe_db_parameters "pg-b" None)].
Proof. reflexivity. Qed.

(** ** The comparison *)

Lemma diff_list_elem (sd dd : pydict) (x : record) :
  x ∈ filter (λ r, has_field "ParameterValue" r) (filter (differs dd) sd).*2 →
  is_Some (x !! "ParameterValue")
  ∧ ∃ n, (n, x) ∈ sd ∧ differs dd (n, x) = true.
Proof.
  intros [Hv ([n x'] & -> & [Hd Hin]%list_elem_of_filter)%list_elem_of_fmap]%list_elem_of_filter.
  split; [by apply bool_decide_unpack in Hv|].
  exists n. split; [done|]. by apply Is_true_true.
Qed.

(** C2: whenever the two collections are fetched and reindexed, the
    comparison returns a diff list and prints a report such that every
    name carried by a destination record and by no source record has its
    destination-only entry (the name, then the destination record after
    ">") in the report, while no record of the diff list carries that name;
    and every record of the diff list is a source record that is
    source-only or differs from the destination record of the same name. *)
Theorem destination_only_reported_not_merged sc sg dc dg (w w1 : world)
    sf df (src dst : list record) (sd dd : pydict) :
  compare_construct_variables sc sg dc dg w = (Ok (sf, src, df, dst), w1) →
  (change_list_to_dict src "ParameterName" w1).1 = Ok sd →
  (change_list_to_dict dst "ParameterName" w1).1 = Ok dd →
  ∃ diff report,
    compare_rds_parameters sc sg dc dg true w =
      (Ok (Some diff), add_out w1 report)
    ∧ (∀ n,
         (∃ r, r ∈ dst ∧ r !! "ParameterName" = Some n) →
         (∀ s, s ∈ src → s !! "ParameterName" ≠ Some n) →
         (∃ d, d ∈ dst ∧ d !! "ParameterName" = Some n
               ∧ reported [[V n; T ":"]; [T "> "; R d]] report
               ∧ d ∉ diff)
         ∧ ∀ x, x ∈ diff → x !! "ParameterName" ≠ Some n)
    ∧ (∀ x, x ∈ diff →
         x ∈ src
         ∧ ∃ n, x !! "ParameterName" = Some n
                ∧ (dict_get n dd = None
                   ∨ ∃ d, dict_get n dd = Some d ∧ x ≠ d)).
Proof.
  intros Hvars Hsd Hdd.
  destruct (compare_rds_parameters_run sc sg dc dg true w w1 sf df src dst
              sd dd Hvars Hsd Hdd) as (deleted & Hdel & Hrun).
  destruct (change_list_to_dict_indexed _ _ _ _ Hsd) as (Hsnd & Hsel & Hskeys).
  destruct (change_list_to_dict_indexed _ _ _ _ Hdd) as (Hdnd & Hdel' & Hdkeys).
  eexists _, _. split; [exact Hrun|].
  assert (Hnames : ∀ x n,
    x ∈ filter (λ r, has_field "ParameterValue" r) (filter (differs dd) sd).*2 →
    x !! "ParameterName" = Some n → ∃ s, s ∈ src ∧ s !! "ParameterName" = Some n).
  { intros x n (_ & n' & Hin & _)%diff_list_elem Hn.
    destruct (Hsel _ _ Hin) as [? ?]. eauto. }
  split.
  - intros n (r & Hr & Hrn) Habsent.
    assert (Hfresh : ∀ x,
      x ∈ filter (λ r, has_field "ParameterValue" r) (filter (differs dd) sd).*2 →
      x !! "ParameterName" ≠ Some n).
    { intros x Hx Hn. destruct (Hnames x n Hx Hn) as (s & Hs & Hsn).
      by apply (Habsent s). }
    split; [|done].
    destruct (Hdkeys r Hr) as (n' & Hn' & Hkey). simplify_eq.
    apply list_elem_of_fmap in Hkey as ([n' d] & -> & Hin). cbn [fst snd] in *.
    destruct (Hdel' _ _ Hin) as [Hd Hdn].
    exists d. split_and!; [done|done| |by intros ?%Hfresh].
    assert (Hns : n' ∉ sd.*1).
    { intros ([k s] & -> & Hs)%list_elem_of_fmap. cbn [fst snd] in *.
      destruct (Hsel _ _ Hs) as [? ?]. by apply (Habsent s). }
    assert (Hentry : dest_entry sd (n', d) = [[V n'; T ":"]; [T "> "; R d]]).
    { unfold dest_entry, dict_contains, dict_keys. cbn [fst snd].
      by rewrite bool_decide_eq_false_2. }
    rewrite <- Hentry. apply reported_in_concat.
    apply list_elem_of_filter. split; [|done]. cbn. intros ?%Hdel. done.
  - intros x Hx. destruct (diff_list_elem _ _ _ Hx) as (_ & n & Hin & Hdiff).
    destruct (Hsel _ _ Hin) as [? ?]. split; [done|]. exists n. split; [done|].
    unfold differs in Hdiff. cbn in Hdiff.
    destruct (dict_get n dd) as [d|]; [right|by left].
    exists d. split; [done|]. by apply bool_decide_eq_true in Hdiff.
Qed.

Lemma destination_only_reported_not_merged_witness :
  ∃ diff report,
    compare_rds_parameters east "pg-a" west "pg-b" true
      (sample_world (compare_script source_xy dest_yz)) =
      (Ok (Some diff), add_out (compare_fetched []) report)
    ∧ (∀ n,
         (∃ r, r ∈ dest_yz ∧ r !! "ParameterName" = Some n) →
         (∀ s, s ∈ source_xy → s !! "ParameterName" ≠ Some n) →
         (∃ d, d ∈ dest_yz ∧ d !! "ParameterName" = Some n
               ∧ reported [[V n; T ":"]; [T "> "; R d]] report
               ∧ d ∉ diff)
         ∧ ∀ x, x ∈ diff → x !! "ParameterName" ≠ Some n)
    ∧ (∀ x, x ∈ diff →
         x ∈ source_xy
         ∧ ∃ n, x !! "ParameterName" = Some n
                ∧ (dict_get n
                     [(PyStr "y", parameter "y" "3" true);
                      (PyStr "z", parameter "z" "4" true)] = None
                   ∨ ∃ d, dict_get n
                            [(PyStr "y", parameter "y" "3" true);
                             (PyStr "z", parameter "z" "4" true)] = Some d
                          ∧ x ≠ d)).
Proof.
  apply (destination_only_reported_not_merged east "pg-a" west "pg-b"
           (sample_world (compare_script source_xy dest_yz))
           (compare_fetched []) (PyStr "mysql8.0") (PyStr "mysql8.0")
           source_xy dest_yz
           [(PyStr "x", parameter "x" "1" true);
            (PyStr "y", parameter "y" "2" true)]).
  - reflexivity.
  - reflexivity.
  - reflexivity.
Defined.

(** Source {x:1, y:2} against destination {y:3, z:4}: x is source-only, y
    is changed and the source's version wins, z is destination-only and
    stays out of the diff list. *)
Example compare_directionality :
  compare_collections source_xy dest_yz true (sample_world []) =
  (Ok (Some [parameter "x" "1" true; parameter "y" "2" true]),
   add_out (sample_world [])
     [[V (PyStr "x"); T ":"];
      [T "< "; R (parameter "x" "1" true)];
      [V (PyStr "y"); T ":"];
      [T "< "; R (parameter "y" "2" true)];
      [T "> "; R (parameter "y" "3" true)];
      [V (PyStr "z"); T ":"];
      [T "> "; R (parameter "z" "4" true)];
      [T ""]; [T ""]]).
Proof. reflexivity. Qed.

(** Source {p1:10} against destination {p1:10, p2:20}: nothing to merge. *)
Example compare_extra_destination_record :
  (compare_collections [parameter "p1" "10" true]
     [parameter "p1" "10" true; parameter "p2" "20" true] true
     (sample_world [])).1 = Ok (Some []).
Proof. reflexivity. Qed.

(** C4: whenever the two collections are fetched and reindexed, a record
    of the source mapping that has no "ParameterValue" field and is
    source-only (its name is not in the destination mapping) or changed
    (the destination record of that name differs) is not in the returned
    diff list, and its entry is in the printed report. *)
Theorem valueless_reported_not_merged sc sg dc dg (w w1 : world)
    sf df (src dst : list record) (sd dd : pydict) :
  compare_construct_variables sc sg dc dg w = (Ok (sf, src, df, dst), w1) →
  (change_list_to_dict src "ParameterName" w1).1 = Ok sd →
  (change_list_to_dict dst "ParameterName" w1).1 = Ok dd →
  ∃ diff report,
    compare_rds_parameters sc sg dc dg true w =
      (Ok (Some diff), add_out w1 report)
    ∧ ∀ n s,
        dict_get n sd = Some s →
        s !! "ParameterValue" = None →
        (dict_get n dd = None →
           (s ∉ diff) ∧ reported [[V n; T ":"]; [T "< "; R s]] report)
        ∧ (∀ d, dict_get n dd = Some d → s ≠ d →
           (s ∉ diff)
           ∧ reported [[V n; T ":"]; [T "< "; R s]; [T "> "; R d]] report).
Proof.
  intros Hvars Hsd Hdd.
  destruct (compare_rds_parameters_run sc sg dc dg true w w1 sf df src dst
              sd dd Hvars Hsd Hdd) as (deleted & Hdel & Hrun).
  eexists _, _. split; [exact Hrun|].
  intros n s Hs Hnov.
  assert (Hout : s ∉ filter (λ r, has_field "ParameterValue" r)
                      (filter (differs dd) sd).*2).
  { intros [Hv _]%diff_list_elem. rewrite Hnov in Hv. by destruct Hv. }
  apply dict_get_elem in Hs.
  split.
  - intros Hd. split; [done|].
    assert (Hentry : source_entry dd (n, s) = [[V n; T ":"]; [T "< "; R s]]).
    { unfold source_entry. cbn. by rewrite Hd. }
    rewrite <- Hentry, <- app_assoc. by apply reported_in_concat.
  - intros d Hd Hne. split; [done|].
    assert (Hentry : source_entry dd (n, s)
                     = [[V n; T ":"]; [T "< "; R s]; [T "> "; R d]]).
    { unfold source_entry. cbn. rewrite Hd. by rewrite bool_decide_eq_true_2. }
    rewrite <- Hentry, <- app_assoc. by apply reported_in_concat.
Qed.

Lemma valueless_reported_not_merged_witness :
  ∃ diff report,
    compare_rds_parameters east "pg-a" west "pg-b" true
      (sample_world (compare_script source_valueless dest_valued_y)) =
      (Ok (Some diff), add_out (compare_fetched []) report)
    ∧ ∀ n s,
        dict_get n [(PyStr "x", valueless_parameter "x" true);
                    (PyStr "y", valueless_parameter "y" true)] = Some s →
        s !! "ParameterValue" = None →
        (dict_get n [(PyStr "y", parameter "y" "3" true)] = None →
           (s ∉ diff) ∧ reported [[V n; T ":"]; [T "< "; R s]] report)
        ∧ (∀ d, dict_get n [(PyStr "y", parameter "y" "3" true)] = Some d →
           s ≠ d →
           (s ∉ diff)
           ∧ reported [[V n; T ":"]; [T "< "; R s]; [T "> "; R d]] report).
Proof.
  apply (valueless_reported_not_merged east "pg-a" west "pg-b"
           (sample_world (compare_script source_valueless dest_valued_y))
           (compare_fetched []) (PyStr "mysql8.0") (PyStr "mysql8.0")
           source_valueless dest_valued_y).
  - reflexivity.
  - reflexivity.
  - reflexivity.
Defined.

(** Both source records lack a value: the report shows them, the diff list
    is empty. *)
Example compare_valueless_source :
  compare_collections source_valueless dest_valued_y true (sample_world []) =
  (Ok (Some []),
   add_out (sample_world [])
     [[V (PyStr "x"); T ":"];
      [T "< "; R (valueless_parameter "x" true)];
      [V (PyStr "y"); T ":"];
      [T "< "; R (valueless_parameter "y" true)];
      [T "> "; R (parameter "y" "3" true)];
      [T ""]; [T ""]]).
Proof. reflexivity. Qed.

(** ** Records with a value *)

(** Successful runs, step by step. *)

Lemma bind_ok_inv {A B} (m : M A) (f : A → M B) w b w' :
  (m ≫= f) w = (Ok b, w') → ∃ a w1, m w = (Ok a, w1) ∧ f a w1 = (Ok b, w').
Proof.
  rewrite bind_run. destruct (m w) as [[a| |] w1]; [eauto|done|done].
Qed.

Ltac minv :=
  repeat match goal with
    | H : (_ ≫= _) _ = (Ok _, _) |- _ =>
        let a := fresh "a" in let w := fresh "w" in let Ha := fresh "Ha" in
        apply bind_ok_inv in H as (a & w & Ha & H)
    end.

Lemma for_each_invariant {A S} (I : S → Prop) (xs : list A) (body : A → S → M S) :
  (∀ x s w s' w', body x s w = (Ok s', w') → I s → I s') →
  ∀ s w s' w', for_each xs body s w = (Ok s', w') → I s → I s'.
Proof.
  intros Hbody. induction xs as [|x xs IH]; intros s w s' w' Hrun Hs.
  - unfold for_each, mret, M_ret in Hrun. by simplify_eq.
  - cbn [for_each] in Hrun. minv. eauto.
Qed.

Lemma append_if_value_present_values (l : list record) (p : record) :
  Forall (λ r, is_Some (r !! "ParameterValue")) l →
  Forall (λ r, is_Some (r !! "ParameterValue")) (append_if_value_present l p).
Proof.
  intros Hl. unfold append_if_value_present, has_field. case_bool_decide; [|done].
  apply Forall_app. split; [done|]. by apply Forall_singleton.
Qed.

Lemma compare_source_step_values source_parameters item locals w locals' w' :
  compare_source_step source_parameters item locals w = (Ok locals', w') →
  Forall (λ r, is_Some (r !! "ParameterValue")) locals.1 →
  Forall (λ r, is_Some (r !! "ParameterValue")) locals'.1.
Proof.
  destruct item as [n v], locals as [diff dest]. unfold compare_source_step.
  intros Hrun Hdiff. cbn [fst] in Hdiff.
  destruct (negb (dict_contains n dest)).
  - minv. unfold mret, M_ret in Hrun. simplify_eq. cbn [fst]. by apply append_if_value_present_values.
  - minv. case_bool_decide.
    + minv. unfold mret, M_ret in Hrun. simplify_eq. cbn [fst]. by apply append_if_value_present_values.
    + unfold mret, M_ret in Hrun. by simplify_eq.
Qed.

Lemma compare_collections_values src dst w diff w' :
  compare_collections src dst true w = (Ok (Some diff), w') →
  Forall (λ r, is_Some (r !! "ParameterValue")) diff.
Proof.
  unfold compare_collections. intros Hrun. minv.
  destruct a1 as [diff1 dest1]. minv.
  rewrite bool_decide_eq_false_2 in Hrun by done. unfold mret, M_ret in Hrun. simplify_eq.
  unfold compare_source_pass in Ha1.
  apply (for_each_invariant (λ s, Forall (λ r, is_Some (r !! "ParameterValue")) s.1)
           _ _ (compare_source_step_values a) _ _ _ _ Ha1).
  constructor.
Qed.

Lemma filter_loop_values (ps : list record) acc w out w' :
  for_each ps (λ p parameters_to_return,
    is_modifiable ← getitem p "IsModifiable";
    if truthy is_modifiable
    then mret (append_if_value_present parameters_to_return p)
    else mret parameters_to_return) acc w = (Ok out, w') →
  Forall (λ r, is_Some (r !! "ParameterValue")) acc →
  Forall (λ r, is_Some (r !! "ParameterValue")) out.
Proof.
  apply (for_each_invariant (Forall (λ r, is_Some (r !! "ParameterValue")))).
  intros p s w1 s' w1' Hrun Hs. minv.
  destruct (truthy a); unfold mret, M_ret in Hrun; simplify_eq; [|done].
  by apply append_if_value_present_values.
Qed.

(** Exceptions that cannot happen. *)

Lemma bind_never_raises {A B} e (m : M A) (f : A → M B) :
  never_raises e m → (∀ a, never_raises e (f a)) → never_raises e (m ≫= f).
Proof.
  intros Hm Hf w w'. rewrite bind_run.
  destruct (m w) as [[a| |] w1] eqn:Hmw; [apply Hf| |done].
  intros [= -> ->]. by apply (Hm w w').
Qed.

Lemma for_each_never_raises {A S} e (xs : list A) (body : A → S → M S) :
  (∀ x, x ∈ xs → ∀ s, never_raises e (body x s)) →
  ∀ s, never_raises e (for_each xs body s).
Proof.
  induction xs as [|x xs IH]; intros Hbody s.
  - by intros w w'.
  - cbn [for_each]. apply bind_never_raises.
    + apply Hbody. left.
    + intros s'. apply IH. intros; apply Hbody. by right.
Qed.

Lemma call_never_raises_KeyError c req k : never_raises (KeyError k) (call c req).
Proof. intros w w'. unfold call. by destruct (replies w) as [|[|]]. Qed.

Lemma print_never_raises e l : never_raises e (print l).
Proof. by intros w w'. Qed.

Lemma getitem_never_raises_other (p : record) k k' :
  k ≠ k' → never_raises (KeyError (PyStr k')) (getitem p k).
Proof.
  intros Hne w w'. unfold getitem. destruct (p !! k); [done|].
  cbn. intros [= ? ?]. done.
Qed.

Lemma getitem_never_raises_present (p : record) k e :
  is_Some (p !! k) → never_raises e (getitem p k).
Proof. intros [v Hv] w w'. unfold getitem. by rewrite Hv. Qed.

Lemma Forall_concat_inv {A} (P : A → Prop) (cs : list (list A)) :
  Forall P (concat cs) → Forall (Forall P) cs.
Proof.
  induction cs as [|c cs IH]; cbn; [constructor|].
  intros [? ?]%Forall_app. constructor; auto.
Qed.

Lemma post_parameters_never_misses_value c g (ps : list record) :
  Forall (λ r, is_Some (r !! "ParameterValue")) ps →
  never_raises (KeyError (PyStr "ParameterValue")) (post_parameters_to_group c g ps).
Proof.
  intros Hps. unfold post_parameters_to_group. case_bool_decide; [by intros w w'|].
  destruct (chunks_run ps 20 ltac:(lia)) as (cs & -> & Hcat & _).
  rewrite <- Hcat in Hps. apply Forall_concat_inv in Hps.
  rewrite Forall_forall in Hps.
  apply for_each_never_raises. intros chunk Hchunk [].
  specialize (Hps chunk Hchunk). rewrite Forall_forall in Hps.
  apply bind_never_raises; [apply call_never_raises_KeyError|]. intros _.
  apply for_each_never_raises. intros p Hp [].
  apply bind_never_raises; [by apply getitem_never_raises_other|]. intros name.
  apply bind_never_raises; [|intros; apply print_never_raises].
  apply getitem_never_raises_present. by apply Hps.
Qed.

Lemma compare_rds_parameters_values sc sg dc dg w diff w' :
  compare_rds_parameters sc sg dc dg true w = (Ok (Some diff), w') →
  Forall (λ r, is_Some (r !! "ParameterValue")) diff.
Proof.
  unfold compare_rds_parameters. intros Hrun.
  minv. destruct a as [[[sf sp] df] dp]. minv.
  by eapply compare_collections_values.
Qed.

Lemma modifiable_filter_values c g w ps w' :
  return_all_modifiable_parameters_with_value_from_parameter_group c g w
    = (Ok ps, w') →
  Forall (λ r, is_Some (r !! "ParameterValue")) ps.
Proof.
  unfold return_all_modifiable_parameters_with_value_from_parameter_group.
  intros Hrun. minv. eapply filter_loop_values; [done|constructor].
Qed.

(** C10: a list of records produced for the batch applier, either the diff
    list returned by the comparison (as merge uses it) or the output of the
    modifiable filter (as copy uses it), holds only records with a
    "ParameterValue" field, and the applier given that list never fails on
    a record's missing "ParameterValue". *)
Theorem value_presence_invariant sc sg dc dg c g (w w' : world)
    (ps : list record) :
  compare_rds_parameters sc sg dc dg true w = (Ok (Some ps), w')
  ∨ return_all_modifiable_parameters_with_value_from_parameter_group c g w
    = (Ok ps, w') →
  Forall (λ p, is_Some (p !! "ParameterValue")) ps
  ∧ ∀ c' g', never_raises (KeyError (PyStr "ParameterValue"))
               (post_parameters_to_group c' g' ps).
Proof.
  intros Hproduced.
  assert (Hvalues : Forall (λ p, is_Some (p !! "ParameterValue")) ps).
  { destruct Hproduced as [Hrun|Hrun].
    - by apply (compare_rds_parameters_values sc sg dc dg w ps w').
    - by apply (modifiable_filter_values c g w ps w'). }
  split; [done|]. intros c' g'. by apply post_parameters_never_misses_value.
Qed.

Lemma value_presence_invariant_witness :
  Forall (λ p, is_Some (p !! "ParameterValue")) [parameter "a" "5" true]
  ∧ ∀ c' g', never_raises (KeyError (PyStr "ParameterValue"))
               (post_parameters_to_group c' g' [parameter "a" "5" true]).
Proof.
  apply (value_presence_invariant east "pg-a" west "pg-b" east "pg-a"
           (sample_world [Answer (page abc None)])
           (World ∅ ["rds_param_group_util.py"] []
              [(east, describe_db_parameters "pg-a" None)] [])).
  right. reflexivity.
Defined.

(** ** The copy: computations that only read from the service *)

Lemma ret_only_describes {A} (a : A) : only_describes (mret a).
Proof.
  intros w r w' [= <- <-]. exists []. by rewrite app_nil_r.
Qed.

Lemma raise_only_describes {A} e : only_describes (raise e : M A).
Proof.
  intros w r w' [= <- <-]. exists []. by rewrite app_nil_r.
Qed.

Lemma bind_only_describes {A B} (m : M A) (f : A → M B) :
  only_describes m → (∀ a, only_describes (f a)) → only_describes (m ≫= f).
Proof.
  intros Hm Hf w r w'. rewrite bind_run.
  destruct (m w) as [[a| |] w1] eqn:Hmw.
  - intros Hfa. destruct (Hm _ _ _ Hmw) as (new1 & E1 & H1).
    destruct (Hf a _ _ _ Hfa) as (new2 & E2 & H2).
    exists (new1 ++ new2). split; [|by apply Forall_app].
    by rewrite E2, E1, app_assoc.
  - intros [= <- <-]. eauto.
  - intros [= <- <-]. eauto.
Qed.

Lemma call_only_describes c req :
  is_describe req = true → only_describes (call c req).
Proof.
  intros Hreq w r w' Hcall. exists [(c, req)]. split.
  - unfold call in Hcall. destruct (replies w) as [|[|]]; by simplify_eq.
  - apply Forall_singleton. cbn. by rewrite Hreq.
Qed.

Lemma for_each_only_describes {A S} (xs : list A) (body : A → S → M S) :
  (∀ x s, only_describes (body x s)) → ∀ s, only_describes (for_each xs body s).
Proof.
  intros Hbody. induction xs as [|x xs IH]; intros s.
  - apply ret_only_describes.
  - cbn [for_each]. by apply bind_only_describes.
Qed.

Lemma getitem_only_describes (p : record) k : only_describes (getitem p k).
Proof.
  unfold getitem. destruct (p !! k);
    [apply ret_only_describes|apply raise_only_describes].
Qed.

Lemma field_only_describes {A} k (o : option A) : only_describes (field k o).
Proof.
  destruct o; [apply ret_only_describes|apply raise_only_describes].
Qed.

Lemma summary_item_only_describes summary k :
  only_describes (summary_item summary k).
Proof.
  unfold summary_item. apply bind_only_describes; [apply field_only_describes|].
  intros groups. apply bind_only_describes.
  - destruct groups; [apply raise_only_describes|apply ret_only_describes].
  - intros group. apply getitem_only_describes.
Qed.

Lemma return_all_parameters_loop_only_describes fuel c g :
  ∀ token acc, only_describes (return_all_parameters_loop fuel c g token acc).
Proof.
  induction fuel as [|fuel IH]; intros token acc.
  - intros w r w' [= <- <-]. exists []. by rewrite app_nil_r.
  - cbn [return_all_parameters_loop].
    destruct token as [| |m]; [|apply ret_only_describes|].
    all: apply bind_only_describes; [by apply call_only_describes|];
      intros chunk; apply bind_only_describes; [apply field_only_describes|];
      intros params; apply bind_only_describes; [|intros; apply IH];
      apply for_each_only_describes; intros; apply ret_only_describes.
Qed.

Lemma return_all_parameters_only_describes c g :
  only_describes (return_all_parameters_from_parameter_group c g).
Proof.
  intros w r w'. apply return_all_parameters_loop_only_describes.
Qed.

Lemma return_parameter_groups_loop_only_describes fuel c :
  ∀ token acc, only_describes (return_parameter_groups_loop fuel c token acc).
Proof.
  induction fuel as [|fuel IH]; intros token acc.
  - intros w r w' [= <- <-]. exists []. by rewrite app_nil_r.
  - cbn [return_parameter_groups_loop].
    destruct token as [| |m]; [|apply ret_only_describes|].
    all: apply bind_only_describes; [by apply call_only_describes|];
      intros chunk; apply bind_only_describes; [apply field_only_describes|];
      intros groups; apply bind_only_describes; [|intros; apply IH];
      apply for_each_only_describes; intros;
      (apply bind_only_describes; [apply getitem_only_describes|]);
      intros; apply ret_only_describes.
Qed.

Lemma return_parameter_groups_only_describes c :
  only_describes (return_parameter_groups c).
Proof.
  intros w r w'. apply return_parameter_groups_loop_only_describes.
Qed.

Lemma modifiable_filter_only_describes c g :
  only_describes
    (return_all_modifiable_parameters_with_value_from_parameter_group c g).
Proof.
  apply bind_only_describes; [apply return_all_parameters_only_describes|].
  intros all. apply for_each_only_describes. intros p acc.
  apply bind_only_describes; [apply getitem_only_describes|].
  intros v. destruct (truthy v); apply ret_only_describes.
Qed.

Lemma copy_construct_variables_only_describes sc sg dc :
  only_describes (copy_construct_variables sc sg dc).
Proof.
  unfold copy_construct_variables.
  apply bind_only_describes; [by apply call_only_describes|]. intros summary.
  apply bind_only_describes; [apply summary_item_only_describes|]. intros family.
  apply bind_only_describes; [apply summary_item_only_describes|]. intros descr.
  apply bind_only_describes; [apply modifiable_filter_only_describes|]. intros ps.
  apply bind_only_describes; [apply return_parameter_groups_only_describes|].
  intros groups. apply ret_only_describes.
Qed.

(** C6: when the variables of a copy are fetched and the destination name
    is among the group names listed in the destination region, the copy
    ends with the "already exists" ValueError in the world the fetch left,
    and every call issued since the start is a describe call: no
    create_db_parameter_group, no modify_db_parameter_group. *)
Theorem copy_into_existing_group_fails sc sg dc dg (w w1 : world)
    summary family description (source_parameters : list record)
    (groups_in_dest_region : list pyval) :
  copy_construct_variables sc sg dc w =
    (Ok (summary, family, description, source_parameters,
         groups_in_dest_region), w1) →
  PyStr dg ∈ groups_in_dest_region →
  copy_rds_parameters sc sg dc dg w =
    (Raised (ValueError ("This group (" +:+ dg +:+ ") already exists in region.")),
     w1)
  ∧ ∃ new, calls w1 = calls w ++ new ∧ Forall (λ cr, is_describe cr.2) new.
Proof.
  intros Hvars Hin. split.
  - unfold copy_rds_parameters. rewrite (bind_ok _ _ _ _ _ Hvars).
    by rewrite bool_decide_eq_true_2.
  - by apply (copy_construct_variables_only_describes sc sg dc w _ _ Hvars).
Qed.

Lemma copy_into_existing_group_fails_witness :
  ∃ w1,
    copy_rds_parameters east "pg-a" west "pg-b" (sample_world copy_script) =
      (Raised (ValueError "This group (pg-b) already exists in region."), w1)
    ∧ ∃ new, calls w1 = calls (sample_world copy_script) ++ new
             ∧ Forall (λ cr, is_describe cr.2) new.
Proof.
  eexists.
  eapply (copy_into_existing_group_fails east "pg-a" west "pg-b"
            (sample_world copy_script)).
  - reflexivity.
  - vm_compute. right. left.
Defined.

(** A copy to a free name creates the group, tagged with its origin, and
    applies the modifiable parameters that have a value. *)
Example copy_run :
  calls (copy_rds_parameters east "pg-a" west "pg-c"
           (sample_world (copy_script ++ [Answer accepted; Answer accepted]))).2 =
    [(east, describe_db_parameter_groups (Some "pg-a") None);
     (east, describe_db_parameters "pg-a" None);
     (west, describe_db_parameter_groups None None);
     (west, create_db_parameter_group "pg-c" (PyStr "mysql8.0") (PyStr "sample")
              [("CopiedFrom", PyStr "arn:aws:rds:pg:pg-a");
               ("CopiedUsingCmd", PyStr "rds_param_group_util.py");
               ("Repo", PyStr "github.com/EpiJunkie/aws_rds_parameter_groups_utility")]);
     (west, modify_db_parameter_group "pg-c" [parameter "a" "5" true])].
Proof. reflexivity. Qed.

(** ** The batch applier *)

Lemma post_report_run (chunk : list record) :
  ∀ w,
    Forall (λ p, is_Some (p !! "ParameterName")
                 ∧ is_Some (p !! "ParameterValue")) chunk →
    for_each chunk (λ p _,
      name ← getitem p "ParameterName";
      value ← getitem p "ParameterValue";
      print [T "    "; V name; T " = "; V value]) tt w =
    (Ok tt, add_out w (applied_line <$> chunk)).
Proof.
  induction chunk as [|p chunk IH]; intros w Hok.
  - cbn. by rewrite add_out_nil.
  - apply Forall_cons in Hok as [[[n Hn] [v Hv]] Hok].
    cbn [for_each]. rewrite bind_run. cbv beta. unfold getitem at 1 2.
    rewrite Hn, Hv. mrun.
    rewrite IH by done. rewrite add_out_add_out. cbn [fmap list_fmap app].
    unfold applied_line at 2. by rewrite Hn, Hv.
Qed.

Lemma post_batches_run c g (cs : list (list record)) :
  ∀ (answers : list response) rest w,
    length answers = length cs →
    Forall (Forall (λ p, is_Some (p !! "ParameterName")
                         ∧ is_Some (p !! "ParameterValue"))) cs →
    replies w = (Answer <$> answers) ++ rest →
    for_each cs (λ parameter_chunk _,
      call c (modify_db_parameter_group g parameter_chunk);;
      for_each parameter_chunk (λ p _,
        name ← getitem p "ParameterName";
        value ← getitem p "ParameterValue";
        print [T "    "; V name; T " = "; V value]) tt) tt w =
    (Ok tt,
     World (environ w) (argv w) rest
       (calls w ++ ((λ b, (c, modify_db_parameter_group g b)) <$> cs))
       (stdout w ++ (applied_line <$> concat cs))).
Proof.
  induction cs as [|chunk cs IH]; intros answers rest w Hlen Hok Hrep.
  - destruct answers; [|done]. cbn in Hrep. destruct w; cbn in *. subst.
    by rewrite !app_nil_r.
  - destruct answers as [|a answers]; [done|].
    apply Forall_cons in Hok as [Hchunk Hok].
    cbn [for_each]. rewrite bind_run. cbv beta. rewrite bind_run.
    unfold call at 1. rewrite Hrep. cbn [fmap list_fmap app].
    rewrite post_report_run by done.
    erewrite IH; [|by injection Hlen|done|done].
    cbn. rewrite fmap_app. by rewrite <- !app_assoc.
Qed.

Lemma post_parameters_run c g (ps : list record) (answers : list response)
    (rest : list reply) (w : world) :
  Forall (λ p, is_Some (p !! "ParameterName")
               ∧ is_Some (p !! "ParameterValue")) ps →
  replies w = (Answer <$> answers) ++ rest →
  Z.of_nat (length answers) = ceil_div (Z.of_nat (length ps)) 20 →
  ∃ batches,
    post_parameters_to_group c g ps w =
      (Ok tt,
       World (environ w) (argv w) rest
         (calls w ++ ((λ b, (c, modify_db_parameter_group g b)) <$> batches))
         (stdout w ++ (applied_line <$> ps)))
    ∧ concat batches = ps
    ∧ Forall (λ b, Z.of_nat (length b) ≤ 20) batches
    ∧ Z.of_nat (length batches) = ceil_div (Z.of_nat (length ps)) 20.
Proof.
  intros Hok Hrep Hlen.
  destruct (chunks_run ps 20 ltac:(lia)) as (cs & Hcs & Hcat & Hsize & Hnum).
  exists cs. split; [|done]. rewrite <- Hnum in Hlen.
  unfold post_parameters_to_group. case_bool_decide as Hempty.
  - destruct ps as [|p ps]; [|done]. cbn in Hcs. injection Hcs as <-.
    destruct answers; [|cbn in Hlen; lia]. cbn in Hrep. destruct w; cbn in *. subst.
    by rewrite !app_nil_r.
  - rewrite Hcs. rewrite <- Hcat.
    apply (post_batches_run c g cs answers); [lia| |done].
    apply Forall_concat_inv. by rewrite Hcat.
Qed.

(** C5, as the code has it: for every parameter list whose records all
    carry a "ParameterName" and a "ParameterValue" field, and a service
    that accepts the calls, the applier issues [ceil (n / 20)]
    modify_db_parameter_group calls and nothing else, in list order, each
    with at most 20 records, whose payloads concatenated are the input list;
    for the empty list it issues none. *)
Theorem post_in_batches c g (ps : list record) (answers : list response)
    (rest : list reply) (w : world) :
  Forall (λ p, is_Some (p !! "ParameterName")
               ∧ is_Some (p !! "ParameterValue")) ps →
  replies w = (Answer <$> answers) ++ rest →
  Z.of_nat (length answers) = ceil_div (Z.of_nat (length ps)) 20 →
  ∃ batches,
    post_parameters_to_group c g ps w =
      (Ok tt,
       World (environ w) (argv w) rest
         (calls w ++ ((λ b, (c, modify_db_parameter_group g b)) <$> batches))
         (stdout w ++ (applied_line <$> ps)))
    ∧ concat batches = ps
    ∧ Forall (λ b, Z.of_nat (length b) ≤ 20) batches
    ∧ Z.of_nat (length batches) = ceil_div (Z.of_nat (length ps)) 20.
Proof. apply post_parameters_run. Qed.

Lemma post_in_batches_witness :
  ∃ batches,
    post_parameters_to_group east "pg" twenty_one_parameters
      (sample_world [Answer accepted; Answer accepted]) =
      (Ok tt,
       World ∅ ["rds_param_group_util.py"] []
         ((λ b, (east, modify_db_parameter_group "pg" b)) <$> batches)
         (applied_line <$> twenty_one_parameters))
    ∧ concat batches = twenty_one_parameters
    ∧ Forall (λ b, Z.of_nat (length b) ≤ 20) batches
    ∧ Z.of_nat (length batches) = 2.
Proof.
  apply (post_in_batches east "pg" twenty_one_parameters
           [accepted; accepted] []
           (sample_world [Answer accepted; Answer accepted])).
  - repeat constructor; by eexists.
  - reflexivity.
  - reflexivity.
Defined.

Lemma post_valueless_record_run :
  post_parameters_to_group east "pg" valueless_then_twenty
    (sample_world [Answer accepted; Answer accepted]) =
    (Raised (KeyError (PyStr "ParameterValue")),
     World ∅ ["rds_param_group_util.py"] [Answer accepted]
       [(east, modify_db_parameter_group "pg" (take 20 valueless_then_twenty))]
       []).
Proof. reflexivity. Qed.

Lemma post_rejected_first_batch_run :
  post_parameters_to_group east "pg" twenty_one_parameters
    (sample_world [Reject "InvalidParameterValue"; Answer accepted]) =
    (Raised (ClientError "InvalidParameterValue"),
     World ∅ ["rds_param_group_util.py"] [Answer accepted]
       [(east, modify_db_parameter_group "pg" (take 20 twenty_one_parameters))]
       []).
Proof. reflexivity. Qed.

(** C5 as stated fails on two lists of 21 records, for which two calls are
    due.  When the first record has no value and the service accepts every
    call, the first batch is sent, then the report of its first record
    raises KeyError, and the second batch is never sent.  When every record
    has its name and value and the service rejects the first batch, the
    second batch is never sent either.  Neither run issues the batches of
    its list. *)
Lemma post_stops_at_valueless_record :
  (calls (post_parameters_to_group east "pg" valueless_then_twenty
            (sample_world [Answer accepted; Answer accepted])).2 =
     [(east, modify_db_parameter_group "pg" (take 20 valueless_then_twenty))]
   ∧ ceil_div (Z.of_nat (length valueless_then_twenty)) 20 = 2
   ∧ ¬ ∃ batches w',
         post_parameters_to_group east "pg" valueless_then_twenty
           (sample_world [Answer accepted; Answer accepted]) = (Ok tt, w')
         ∧ calls w' =
             (λ b, (east, modify_db_parameter_group "pg" b)) <$> batches
         ∧ concat batches = valueless_then_twenty)
  ∧ (calls (post_parameters_to_group east "pg" twenty_one_parameters
              (sample_world [Reject "InvalidParameterValue"; Answer accepted])).2 =
       [(east, modify_db_parameter_group "pg" (take 20 twenty_one_parameters))]
     ∧ ceil_div (Z.of_nat (length twenty_one_parameters)) 20 = 2).
Proof.
  rewrite post_valueless_record_run, post_rejected_first_batch_run.
  split_and!; try reflexivity.
  by intros (batches & w' & Hrun & _).
Qed.

(** The empty list: no call, no line. *)
Example post_nothing :
  post_parameters_to_group east "pg" [] (sample_world [Answer accepted]) =
  (Ok tt, sample_world [Answer accepted]).
Proof. reflexivity. Qed.

(** A rejected batch stops the run; the batches before it stay applied. *)
Example post_rejected_batch :
  (post_parameters_to_group east "pg" twenty_one_parameters
     (sample_world [Answer accepted; Reject "InvalidParameterValue"])).1 =
  Raised (ClientError "InvalidParameterValue").
Proof. reflexivity. Qed.

(** A merge fetches both groups, compares, and applies the diff list. *)
Example merge_run :
  (merge_rds_parameters east "pg-a" west "pg-b"
     (sample_world (compare_script source_xy dest_yz ++ [Answer accepted]))).1
  = Ok tt
  ∧ calls (merge_rds_parameters east "pg-a" west "pg-b"
             (sample_world
                (compare_script source_xy dest_yz ++ [Answer accepted]))).2 =
    [(east, describe_db_parameter_groups (Some "pg-a") None);
     (east, describe_db_parameters "pg-a" None);
     (west, describe_db_parameter_groups (Some "pg-b") None);
     (west, describe_db_parameters "pg-b" None);
     (west, modify_db_parameter_group "pg-b" source_xy)].
Proof. split; reflexivity. Qed.

(** ** The fuel of the loops is enough *)

Lemma ret_terminates {A} (a : A) : terminates (mret a).
Proof. by intros w. Qed.

Lemma raise_terminates {A} e : terminates (raise e : M A).
Proof. by intros w. Qed.

Lemma print_terminates l : terminates (print l).
Proof. by intros w. Qed.

Lemma call_terminates c req : terminates (call c req).
Proof. intros w. unfold call. by destruct (replies w) as [|[|]]. Qed.

Lemma bind_terminates {A B} (m : M A) (f : A → M B) :
  terminates m → (∀ a, terminates (f a)) → terminates (m ≫= f).
Proof.
  intros Hm Hf w. rewrite bind_run. specialize (Hm w).
  destruct (m w) as [[a| |] w1]; [apply Hf|done|done].
Qed.

Lemma for_each_terminates {A S} (xs : list A) (body : A → S → M S) :
  (∀ x s, terminates (body x s)) → ∀ s, terminates (for_each xs body s).
Proof.
  intros Hbody. induction xs as [|x xs IH]; intros s.
  - apply ret_terminates.
  - cbn [for_each]. by apply bind_terminates.
Qed.

Lemma getitem_terminates (p : record) k : terminates (getitem p k).
Proof.
  unfold getitem. destruct (p !! k); [apply ret_terminates|apply raise_terminates].
Qed.

Lemma field_terminates {A} k (o : option A) : terminates (field k o).
Proof. destruct o; [apply ret_terminates|apply raise_terminates]. Qed.

Lemma dict_getitem_terminates d k : terminates (dict_getitem d k).
Proof.
  unfold dict_getitem.
  destruct (dict_get k d); [apply ret_terminates|apply raise_terminates].
Qed.

Lemma summary_item_terminates summary k : terminates (summary_item summary k).
Proof.
  unfold summary_item. apply bind_terminates; [apply field_terminates|].
  intros groups. apply bind_terminates; [|intros; apply getitem_terminates].
  destruct groups; [apply raise_terminates|apply ret_terminates].
Qed.

Lemma return_all_parameters_loop_terminates fuel c g :
  ∀ token acc w,
    (length (replies w) < fuel)%nat →
    (return_all_parameters_loop fuel c g token acc w).1 ≠ Diverged.
Proof.
  induction fuel as [|fuel IH]; intros token acc w Hfuel; [lia|].
  cbn [return_all_parameters_loop].
  destruct token as [| |m]; [|done|].
  all: rewrite bind_run; unfold call;
    destruct (replies w) as [|[r|code] rest] eqn:Hrep; [done| |done];
    rewrite bind_run; destruct (Parameters r) as [ps|]; [|done];
    cbn [field]; mrun; rewrite for_each_append;
    apply IH; cbn in *; lia.
Qed.

Lemma return_all_parameters_terminates c g :
  terminates (return_all_parameters_from_parameter_group c g).
Proof.
  intros w. apply return_all_parameters_loop_terminates. lia.
Qed.

Lemma group_names_loop_pure (groups : list record) :
  ∀ acc : list pyval, ∃ res, res ≠ Diverged ∧ ∀ w,
    for_each groups (λ g groups_to_return,
      name ← getitem g "DBParameterGroupName";
      mret (groups_to_return ++ [name])) acc w = (res, w).
Proof.
  induction groups as [|g groups IH]; intros acc.
  - by exists (Ok acc).
  - cbn [for_each]. destruct (g !! "DBParameterGroupName") as [n|] eqn:Hn.
    + destruct (IH (acc ++ [n])) as (res & Hend & Hres).
      exists res. split; [done|]. intros w.
      mrun. unfold getitem. rewrite Hn. mrun. apply Hres.
    + exists (Raised (KeyError (PyStr "DBParameterGroupName"))).
      split; [done|]. intros w.
      mrun. unfold getitem. rewrite Hn. by mrun.
Qed.

Lemma return_parameter_groups_loop_terminates fuel c :
  ∀ token acc w,
    (length (replies w) < fuel)%nat →
    (return_parameter_groups_loop fuel c token acc w).1 ≠ Diverged.
Proof.
  induction fuel as [|fuel IH]; intros token acc w Hfuel; [lia|].
  cbn [return_parameter_groups_loop].
  destruct token as [| |m]; [|done|].
  all: rewrite bind_run; unfold call;
    destruct (replies w) as [|[r|code] rest] eqn:Hrep; [done| |done];
    rewrite bind_run; destruct (DBParameterGroups r) as [gs|]; [|done];
    cbn [field]; mrun;
    destruct (group_names_loop_pure gs acc) as (res & Hend & ->);
    destruct res as [names| |]; [|done|done];
    apply IH; cbn in *; lia.
Qed.

Lemma return_parameter_groups_terminates c :
  terminates (return_parameter_groups c).
Proof.
  intros w. apply return_parameter_groups_loop_terminates. lia.
Qed.

Lemma modifiable_filter_terminates c g :
  terminates
    (return_all_modifiable_parameters_with_value_from_parameter_group c g).
Proof.
  apply bind_terminates; [apply return_all_parameters_terminates|].
  intros all. apply for_each_terminates. intros p acc.
  apply bind_terminates; [apply getitem_terminates|].
  intros v. destruct (truthy v); apply ret_terminates.
Qed.

Lemma post_parameters_terminates c g ps :
  terminates (post_parameters_to_group c g ps).
Proof.
  unfold post_parameters_to_group. case_bool_decide; [apply ret_terminates|].
  destruct (chunks_run ps 20 ltac:(lia)) as (cs & -> & _).
  apply for_each_terminates. intros chunk [].
  apply bind_terminates; [apply call_terminates|]. intros _.
  apply for_each_terminates. intros p [].
  apply bind_terminates; [apply getitem_terminates|]. intros name.
  apply bind_terminates; [apply getitem_terminates|]. intros value.
  apply print_terminates.
Qed.

Lemma change_list_to_dict_terminates l key :
  terminates (change_list_to_dict l key).
Proof.
  apply for_each_terminates. intros r acc.
  destruct (dict_contains (PyStr key) acc); [apply raise_terminates|].
  apply bind_terminates; [apply getitem_terminates|].
  intros; apply ret_terminates.
Qed.

Ltac terminates_step :=
  first
    [ apply ret_terminates
    | apply raise_terminates
    | apply print_terminates
    | apply call_terminates
    | apply getitem_terminates
    | apply dict_getitem_terminates
    | apply summary_item_terminates
    | apply change_list_to_dict_terminates
    | apply return_all_parameters_terminates
    | apply return_parameter_groups_terminates
    | apply modifiable_filter_terminates
    | apply post_parameters_terminates
    | apply bind_terminates; [|intros ?] ].

Lemma compare_source_step_terminates sd item locals :
  terminates (compare_source_step sd item locals).
Proof.
  destruct item as [n v], locals as [diff dest]. unfold compare_source_step.
  destruct (negb (dict_contains n dest)); [repeat terminates_step|].
  repeat terminates_step. case_bool_decide; repeat terminates_step.
Qed.

Lemma compare_dest_step_terminates sd dd item u :
  terminates (compare_dest_step sd dd item u).
Proof.
  destruct item as [n v]. unfold compare_dest_step.
  destruct (negb (dict_contains n sd)); repeat terminates_step.
Qed.

Lemma compare_collections_terminates src dst return_list :
  terminates (compare_collections src dst return_list).
Proof.
  unfold compare_collections, compare_source_pass, compare_dest_pass.
  repeat terminates_step.
  - apply for_each_terminates. intros. apply compare_source_step_terminates.
  - match goal with p : (list record * pydict)%type |- _ => destruct p end.
    repeat terminates_step.
    + apply for_each_terminates. intros. apply compare_dest_step_terminates.
    + case_bool_decide; repeat terminates_step.
Qed.

Lemma compare_rds_parameters_terminates sc sg dc dg return_list :
  terminates (compare_rds_parameters sc sg dc dg return_list).
Proof.
  unfold compare_rds_parameters. terminates_step.
  - unfold compare_construct_variables. repeat terminates_step.
  - destruct a as [[[sf sp] df] dp]. terminates_step.
    + intros w. by rewrite compare_print_header_run.
    + apply compare_collections_terminates.
Qed.

Lemma merge_rds_parameters_terminates sc sg dc dg :
  terminates (merge_rds_parameters sc sg dc dg).
Proof.
  unfold merge_rds_parameters.
  apply bind_terminates; [apply compare_rds_parameters_terminates|].
  intros parameters_diff. repeat terminates_step.
  destruct parameters_diff; terminates_step.
Qed.

Lemma copy_rds_parameters_terminates sc sg dc dg :
  terminates (copy_rds_parameters sc sg dc dg).
Proof.
  unfold copy_rds_parameters. apply bind_terminates.
  - unfold copy_construct_variables. repeat terminates_step.
  - intros [[[[summary family] description] ps] groups].
    case_bool_decide; [terminates_step|].
    repeat terminates_step. by intros w.
Qed.

(** Whatever the service answers, the script ends: with its report, or
    with an exception. *)
Lemma run_script_terminates cl : terminates (run_script cl).
Proof.
  unfold run_script. terminates_step.
  { intros w. unfold default_source_region.
    by destruct (environ w !! "AWS_DEFAULT_REGION"). }
  unfold main. terminates_step.
  { unfold parse_args.
    destruct (opt_action cl), (opt_parameter_group cl),
      (opt_dest_parameter_group cl); try apply raise_terminates.
    case_bool_decide; terminates_step. }
  destruct (_ || _).
  { terminates_step; [apply compare_rds_parameters_terminates|terminates_step]. }
  case_bool_decide; [apply copy_rds_parameters_terminates|].
  case_bool_decide; [apply merge_rds_parameters_terminates|terminates_step].
Qed.

(** * Further properties of the code *)

(** ** The lister *)

(** X1: for answers of which all but the last carry a cursor and each lists
    groups that have their name, the lister returns the names of all
    answers in order, having asked for the first page without a cursor and
    for each next page with the cursor of the page before. *)
Theorem lister_follows_cursors c (pages : list response) (last : response)
    (rest : list reply) (w : world) :
  Forall (λ r, is_Some (Marker r)) pages →
  Marker last = None →
  Forall well_listed (pages ++ [last]) →
  replies w = (Answer <$> (pages ++ [last])) ++ rest →
  return_parameter_groups c w =
    (Ok (concat (listed_names <$> (pages ++ [last]))),
     World (environ w) (argv w) rest
       (calls w ++ ((λ m, (c, describe_db_parameter_groups None m)) <$>
                      (None :: (Marker <$> pages))))
       (stdout w)).
Proof. apply return_parameter_groups_run. Qed.

Lemma lister_follows_cursors_witness :
  return_parameter_groups west
    (sample_world [Answer (group_listing ["default.mysql8.0"] (Some "cursor-1"));
                   Answer (group_listing ["pg-b"] None)]) =
  (Ok [PyStr "default.mysql8.0"; PyStr "pg-b"],
   World ∅ ["rds_param_group_util.py"] []
     [(west, describe_db_parameter_groups None None);
      (west, describe_db_parameter_groups None (Some "cursor-1"))]
     []).
Proof.
  apply (lister_follows_cursors west
           [group_listing ["default.mysql8.0"] (Some "cursor-1")]
           (group_listing ["pg-b"] None) []
           (sample_world
              [Answer (group_listing ["default.mysql8.0"] (Some "cursor-1"));
               Answer (group_listing ["pg-b"] None)])).
  - repeat constructor. by eexists.
  - reflexivity.
  - repeat constructor; eexists; (split; [reflexivity|]);
      repeat constructor; by eexists.
  - reflexivity.
Defined.

(** ** More on chunking *)

(** X2: a batch size that is zero or negative never lets the generator end on
    a list that is not empty. *)
Theorem chunks_nonpositive_size_never_ends {A} (l : list A) (b : Z) :
  b ≤ 0 → l ≠ [] → chunks l b = None.
Proof. apply chunks_never_ends. Qed.

Lemma chunks_nonpositive_size_never_ends_witness :
  chunks ["a"; "b"] (-1) = None.
Proof. apply (chunks_nonpositive_size_never_ends ["a"; "b"] (-1)); [lia|done]. Defined.

Lemma chunks_from_shape {A} (l : list A) (b : Z) :
  0 < b → ∀ fuel (s : nat) cs,
    chunks_from fuel l b (Z.of_nat s) = Some cs →
    ∀ (i : nat) c, cs !! i = Some c →
      c = take (Z.to_nat b) (drop (s + i * Z.to_nat b) l)
      ∧ (s + i * Z.to_nat b < length l)%nat.
Proof.
  intros Hb. induction fuel as [|fuel IH]; intros s cs Hcs i c Hi; cbn in Hcs.
  - destruct (Z.ltb_spec (Z.of_nat s) (Z.of_nat (length l))); [done|].
    by simplify_eq.
  - destruct (Z.ltb_spec (Z.of_nat s) (Z.of_nat (length l))) as [Hlt|];
      [|by simplify_eq].
    replace (Z.of_nat s + b) with (Z.of_nat (s + Z.to_nat b)) in Hcs by lia.
    destruct (chunks_from fuel l b (Z.of_nat (s + Z.to_nat b))) as [rest|] eqn:Hrest;
      [|done].
    cbn in Hcs. simplify_eq. destruct i as [|i]; cbn in Hi.
    + simplify_eq. rewrite Nat.add_0_r.
      replace (Z.of_nat (s + Z.to_nat b)) with (Z.of_nat s + b) by lia.
      rewrite py_slice_chunk by lia. split; [done|lia].
    + destruct (IH _ _ Hrest i c Hi) as [-> Hbound].
      replace (s + S i * Z.to_nat b)%nat with (s + Z.to_nat b + i * Z.to_nat b)%nat
        by lia.
      done.
Qed.

(** X3: for a batch size [B > 0] the chunk of rank [i] is the slice of the
    list from [i * B], [B] long or what is left of the list, and it starts
    inside the list: no chunk is empty, and none but the last is short. *)
Theorem chunks_are_consecutive_slices {A} (L : list A) (B : Z) cs :
  0 < B → chunks L B = Some cs →
  ∀ (i : nat) c, cs !! i = Some c →
    c = take (Z.to_nat B) (drop (i * Z.to_nat B) L)
    ∧ c ≠ []
    ∧ ((S i < length cs)%nat → Z.of_nat (length c) = B).
Proof.
  intros HB Hcs i c Hi.
  destruct (chunks_from_shape L B HB _ 0%nat cs Hcs i c Hi) as [Hc Hstart].
  cbn in Hc, Hstart. split; [done|]. split.
  - intros Hnil. apply (f_equal length) in Hc.
    rewrite Hnil, length_take, length_drop in Hc. cbn in Hc. lia.
  - intros Hnext. destruct (lookup_lt_is_Some_2 cs (S i) Hnext) as [c' Hc'].
    destruct (chunks_from_shape L B HB _ 0%nat cs Hcs (S i) c' Hc') as [_ Hstart'].
    rewrite Hc, length_take, length_drop. lia.
Qed.

Lemma chunks_are_consecutive_slices_witness :
  ["c"; "d"] = take 2 (drop 2 ["a"; "b"; "c"; "d"; "e"])
  ∧ ["c"; "d"] ≠ []
  ∧ ((2 < length [["a"; "b"]; ["c"; "d"]; ["e"]])%nat →
     Z.of_nat (length ["c"; "d"]) = 2).
Proof.
  apply (chunks_are_consecutive_slices ["a"; "b"; "c"; "d"; "e"] 2
           [["a"; "b"]; ["c"; "d"]; ["e"]] ltac:(lia) eq_refl 1%nat ["c"; "d"]
           eq_refl).
Defined.

(** ** Errors of the service and of the records *)

Lemma return_all_parameters_loop_rejected c g code pages :
  ∀ rest token acc w fuel,
    token ≠ TokenFalse →
    Forall (λ r, is_Some (Marker r)) pages →
    Forall (λ r, is_Some (Parameters r)) pages →
    (length pages + 1 ≤ fuel)%nat →
    replies w = (Answer <$> pages) ++ Reject code :: rest →
    return_all_parameters_loop fuel c g token acc w =
      (Raised (ClientError code),
       World (environ w) (argv w) rest
         (calls w ++ ((λ m, (c, describe_db_parameters g m)) <$>
                        (token_marker token :: (Marker <$> pages))))
         (stdout w)).
Proof.
  induction pages as [|page pages IH];
    intros rest token acc w fuel Htok Hmark Hparams Hfuel Hrep.
  - destruct fuel as [|fuel]; [cbn in Hfuel; lia|].
    cbn [return_all_parameters_loop].
    destruct token as [| |m]; [|done|];
      rewrite bind_run; unfold call; rewrite Hrep; reflexivity.
  - destruct fuel as [|fuel]; [cbn in Hfuel; lia|].
    apply Forall_cons in Hmark as [[m' Hm'] Hmark].
    apply Forall_cons in Hparams as [[ps Hps] Hparams].
    assert (Hcall : ∀ req, call c req w =
      (Ok page, World (environ w) (argv w)
                  ((Answer <$> pages) ++ Reject code :: rest)
                  (calls w ++ [(c, req)]) (stdout w))).
    { intros req. unfold call. by rewrite Hrep. }
    cbn [return_all_parameters_loop].
    destruct token as [| |m]; [|done|];
      rewrite (bind_ok _ _ _ _ _ (Hcall _)); rewrite Hps; cbn [field];
      rewrite bind_run; cbn; rewrite bind_run, for_each_append;
      unfold next_token; rewrite Hm';
      (erewrite IH; [|done|done|done|cbn in *; lia|done]);
      cbn; rewrite ?Hm'; by rewrite <- !app_assoc.
Qed.

(** X4: when the service rejects a request for a page, after any number
    of pages that carried their parameters and a cursor, the fetcher ends
    with the service's error as it is; the pages already fetched are not
    returned, and no further request is issued. *)
Theorem fetch_propagates_rejection c g code (pages : list response)
    (rest : list reply) (w : world) :
  Forall (λ r, is_Some (Marker r)) pages →
  Forall (λ r, is_Some (Parameters r)) pages →
  replies w = (Answer <$> pages) ++ Reject code :: rest →
  return_all_parameters_from_parameter_group c g w =
    (Raised (ClientError code),
     World (environ w) (argv w) rest
       (calls w ++ ((λ m, (c, describe_db_parameters g m)) <$>
                      (None :: (Marker <$> pages))))
       (stdout w)).
Proof.
  intros Hmark Hparams Hrep. unfold return_all_parameters_from_parameter_group.
  rewrite (return_all_parameters_loop_rejected c g code pages rest TokenNone []);
    try done.
  rewrite Hrep, length_app, length_fmap. cbn. lia.
Qed.

Lemma fetch_propagates_rejection_witness :
  return_all_parameters_from_parameter_group east "pg-a"
    (sample_world [Answer (page [parameter "a" "5" true] (Some "cursor-1"));
                   Reject "DBParameterGroupNotFound"]) =
  (Raised (ClientError "DBParameterGroupNotFound"),
   World ∅ ["rds_param_group_util.py"] []
     [(east, describe_db_parameters "pg-a" None);
      (east, describe_db_parameters "pg-a" (Some "cursor-1"))]
     []).
Proof.
  apply (fetch_propagates_rejection east "pg-a" "DBParameterGroupNotFound"
           [page [parameter "a" "5" true] (Some "cursor-1")] []
           (sample_world
              [Answer (page [parameter "a" "5" true] (Some "cursor-1"));
               Reject "DBParameterGroupNotFound"])).
  - repeat constructor. by eexists.
  - repeat constructor. by eexists.
  - reflexivity.
Defined.

Lemma filter_loop_missing_flag (before : list record) :
  ∀ (p : record) after acc w,
    Forall (λ r : record, is_Some (r !! "IsModifiable")) before →
    p !! "IsModifiable" = None →
    for_each (before ++ p :: after) (λ p parameters_to_return,
      is_modifiable ← getitem p "IsModifiable";
      if truthy is_modifiable
      then mret (append_if_value_present parameters_to_return p)
      else mret parameters_to_return) acc w =
    (Raised (KeyError (PyStr "IsModifiable")), w).
Proof.
  induction before as [|r before IH]; intros p after acc w Hflags Hp.
  - cbn [app for_each]. rewrite bind_run. cbv beta. unfold getitem at 1.
    rewrite Hp. reflexivity.
  - apply Forall_cons in Hflags as [[v Hv] Hflags].
    cbn [app for_each]. rewrite bind_run. cbv beta. unfold getitem at 1.
    rewrite Hv. rewrite bind_run. cbn [mret M_ret].
    destruct (truthy v); cbn; by apply IH.
Qed.

(** X5: a fetched record without the "IsModifiable" key makes the filter end
    with KeyError, whatever the records after it are and however many
    records before it qualified. *)
Theorem modifiable_filter_missing_flag c g (w w' : world)
    (before after : list record) (p : record) :
  return_all_parameters_from_parameter_group c g w
    = (Ok (before ++ p :: after), w') →
  Forall (λ r : record, is_Some (r !! "IsModifiable")) before →
  p !! "IsModifiable" = None →
  return_all_modifiable_parameters_with_value_from_parameter_group c g w =
    (Raised (KeyError (PyStr "IsModifiable")), w').
Proof.
  intros Hfetch Hflags Hp.
  unfold return_all_modifiable_parameters_with_value_from_parameter_group.
  rewrite (bind_ok _ _ _ _ _ Hfetch). by apply filter_loop_missing_flag.
Qed.

Lemma modifiable_filter_missing_flag_witness :
  return_all_modifiable_parameters_with_value_from_parameter_group east "pg-a"
    (sample_world
       [Answer (page [parameter "a" "5" true;
                      {[ "ParameterName" := PyStr "b" ]};
                      parameter "c" "7" true] None)]) =
  (Raised (KeyError (PyStr "IsModifiable")),
   World ∅ ["rds_param_group_util.py"] []
     [(east, describe_db_parameters "pg-a" None)] []).
Proof.
  apply (modifiable_filter_missing_flag east "pg-a" _ _
           [parameter "a" "5" true] [parameter "c" "7" true]
           {[ "ParameterName" := PyStr "b" ]}).
  - reflexivity.
  - repeat constructor. by eexists.
  - reflexivity.
Defined.

Lemma post_batches_rejected c g code (cs : list (list record)) :
  ∀ (answers : list response) rest w,
    (length answers < length cs)%nat →
    Forall (Forall (λ p : record, is_Some (p !! "ParameterName")
                         ∧ is_Some (p !! "ParameterValue"))) cs →
    replies w = (Answer <$> answers) ++ Reject code :: rest →
    for_each cs (λ parameter_chunk _,
      call c (modify_db_parameter_group g parameter_chunk);;
      for_each parameter_chunk (λ p _,
        name ← getitem p "ParameterName";
        value ← getitem p "ParameterValue";
        print [T "    "; V name; T " = "; V value]) tt) tt w =
    (Raised (ClientError code),
     World (environ w) (argv w) rest
       (calls w ++ ((λ b, (c, modify_db_parameter_group g b))
                      <$> take (S (length answers)) cs))
       (stdout w ++ (applied_line <$> concat (take (length answers) cs)))).
Proof.
  induction cs as [|chunk cs IH]; intros answers rest w Hlen Hok Hrep.
  - cbn in Hlen. lia.
  - apply Forall_cons in Hok as [Hchunk Hok].
    cbn [for_each]. rewrite bind_run. cbv beta. rewrite bind_run.
    unfold call at 1. rewrite Hrep. destruct answers as [|a answers].
    + cbn. by rewrite app_nil_r.
    + cbn [fmap list_fmap app]. rewrite post_report_run by done.
      rewrite (IH answers rest); [|cbn in Hlen; lia|done|done].
      cbn. rewrite fmap_app. by rewrite <- !app_assoc.
Qed.

(** X6: when every record has its name and value and the service accepts [k]
    batches and rejects the next one, the applier ends with the service's
    error: exactly the first [k + 1] batches were sent, the records of the
    first [k] were reported, and no later batch is sent. *)
Theorem post_stops_at_rejected_batch c g code (ps : list record)
    (answers : list response) (rest : list reply) (w : world) :
  Forall (λ p : record, is_Some (p !! "ParameterName")
               ∧ is_Some (p !! "ParameterValue")) ps →
  replies w = (Answer <$> answers) ++ Reject code :: rest →
  Z.of_nat (length answers) < ceil_div (Z.of_nat (length ps)) 20 →
  ∃ batches,
    chunks ps 20 = Some batches
    ∧ post_parameters_to_group c g ps w =
        (Raised (ClientError code),
         World (environ w) (argv w) rest
           (calls w ++ ((λ b, (c, modify_db_parameter_group g b))
                          <$> take (S (length answers)) batches))
           (stdout w
            ++ (applied_line <$> concat (take (length answers) batches)))).
Proof.
  intros Hok Hrep Hlen.
  destruct (chunks_run ps 20 ltac:(lia)) as (cs & Hcs & Hcat & Hsize & Hnum).
  exists cs. split; [done|]. rewrite <- Hnum in Hlen.
  unfold post_parameters_to_group. case_bool_decide as Hempty.
  - destruct ps; [|done]. cbn in Hcs. injection Hcs as <-. cbn [length] in Hlen. lia.
  - rewrite Hcs. apply post_batches_rejected; [lia| |done].
    apply Forall_concat_inv. by rewrite Hcat.
Qed.

Lemma post_stops_at_rejected_batch_witness :
  ∃ batches,
    chunks twenty_one_parameters 20 = Some batches
    ∧ post_parameters_to_group east "pg" twenty_one_parameters
        (sample_world [Answer accepted; Reject "InvalidParameterValue"]) =
        (Raised (ClientError "InvalidParameterValue"),
         World ∅ ["rds_param_group_util.py"] []
           ((λ b, (east, modify_db_parameter_group "pg" b)) <$> take 2 batches)
           (applied_line <$> concat (take 1 batches))).
Proof.
  apply (post_stops_at_rejected_batch east "pg" "InvalidParameterValue"
           twenty_one_parameters [accepted] []
           (sample_world [Answer accepted; Reject "InvalidParameterValue"])).
  - repeat constructor; by eexists.
  - reflexivity.
  - reflexivity.
Defined.

(** ** More on reindexing *)

Lemma dict_get_set k v (d : pydict) n :
  dict_get n (dict_set k v d) = if decide (n = k) then Some v else dict_get n d.
Proof.
  induction d as [|[k' v'] d IH]; cbn.
  - by destruct (decide (n = k)).
  - destruct (decide (k = k')) as [->|Hne]; cbn.
    + by destruct (decide (n = k')).
    + rewrite IH. destruct (decide (n = k')) as [->|]; [|done].
      by rewrite decide_False.
Qed.

Lemma dict_set_fresh k v (d : pydict) : k ∉ d.*1 → dict_set k v d = d ++ [(k, v)].
Proof.
  induction d as [|[k' v'] d IH]; cbn; [done|].
  intros [Hne Hd]%not_elem_of_cons. rewrite decide_False by done.
  by rewrite IH.
Qed.

(** The loop of the reindexing, from any dictionary that does not have the
    string [key] among its keys, over records that all have a name other
    than [key]. *)
Lemma reindex_loop_accepts key (l : list record) :
  Forall (λ r : record, ∃ n, r !! key = Some n ∧ n ≠ PyStr key) l →
  ∀ acc : pydict, PyStr key ∉ acc.*1 →
    ∃ d, (∀ w, for_each l (λ each_obj_in_list dict_to_export,
            if dict_contains (PyStr key) dict_to_export
            then raise (Exception "This key name is not unique.")
            else
              k ← getitem each_obj_in_list key;
              mret (dict_set k each_obj_in_list dict_to_export)) acc w
          = (Ok d, w))
         ∧ (PyStr key ∉ d.*1)
         ∧ (∀ n, dict_get n d =
                 match last (filter (λ r : record, r !! key = Some n) l) with
                 | Some r => Some r
                 | None => dict_get n acc
                 end)
         ∧ (NoDup (acc.*1 ++ (keyed_by key l).*1) → d = acc ++ keyed_by key l).
Proof.
  induction l as [|r l IH]; intros Hl acc Hacc.
  - exists acc. split_and!; [done|done|done|]. intros _. by rewrite app_nil_r.
  - apply Forall_cons in Hl as [(k & Hk & Hne) Hl].
    destruct (IH Hl (dict_set k r acc)) as (d & Hd & Hkey & Hlast & Hexact).
    { rewrite dict_set_keys. case_decide; [done|].
      intros [?|?%list_elem_of_singleton]%elem_of_app; [done|]. by subst. }
    exists d. split_and!; [|done| |].
    + intros w. cbn [for_each]. unfold dict_contains, dict_keys.
      rewrite bool_decide_eq_false_2 by done.
      mrun. unfold getitem. rewrite Hk. mrun. apply Hd.
    + intros n. rewrite Hlast, dict_get_set, filter_cons.
      destruct (decide (n = k)) as [->|Hnk].
      * rewrite decide_True by done. rewrite last_cons.
        by destruct (last (filter _ l)).
      * rewrite decide_False by congruence. done.
    + unfold keyed_by at 1 2. cbn [omap list_omap]. rewrite Hk. cbn [fmap option_fmap option_map].
      fold (keyed_by key l). cbn [fmap list_fmap fst].
      intros Hnd. assert (Hfresh : k ∉ acc.*1).
      { apply NoDup_app in Hnd as (_ & Hdisj & _). intros Hin.
        apply (Hdisj _ Hin). left. }
      rewrite dict_set_fresh in Hexact by done.
      rewrite Hexact; [by rewrite <- app_assoc|].
      rewrite fmap_app, <- app_assoc. exact Hnd.
Qed.

Lemma for_each_app {A S} (xs ys : list A) (body : A → S → M S) (s : S) w :
  for_each (xs ++ ys) body s w = (for_each xs body s ≫= for_each ys body) w.
Proof.
  revert s w. induction xs as [|x xs IH]; intros s w; [done|].
  cbn [app for_each]. rewrite !bind_run.
  destruct (body x s w) as [[s'| |] w']; [|done|done].
  by rewrite IH, bind_run.
Qed.

(** X7: whenever the reindexing returns, it has left the world as it was, and
    the mapping has each key once, every entry is a record of the list
    under its own name, and the name of every record of the list is a
    key. *)
Theorem reindex_sound (l : list record) (key : string) (w w' : world)
    (d : pydict) :
  change_list_to_dict l key w = (Ok d, w') →
  w' = w
  ∧ NoDup d.*1
  ∧ (∀ k r, dict_get k d = Some r → r ∈ l ∧ r !! key = Some k)
  ∧ (∀ r, r ∈ l → ∃ k, r !! key = Some k ∧ is_Some (dict_get k d)).
Proof.
  intros Hrun.
  destruct (change_list_to_dict_pure l key) as (res & Hres).
  assert (w' = w) as -> by (rewrite Hres in Hrun; by simplify_eq).
  destruct (change_list_to_dict_indexed l key w d) as (Hnd & Hel & Hkeys);
    [by rewrite Hrun|].
  split_and!; [done|done| |].
  - intros k r Hget. apply Hel. by apply dict_get_elem.
  - intros r Hr. destruct (Hkeys r Hr) as (k & Hk & Hin). exists k.
    split; [done|]. destruct (dict_get k d) eqn:Hget; [done|].
    by apply dict_get_None in Hget.
Qed.

Lemma reindex_sound_witness :
  sample_world [] = sample_world []
  ∧ NoDup [(PyStr "x", parameter "x" "1" true);
           (PyStr "y", parameter "y" "2" true)].*1
  ∧ (∀ k r, dict_get k [(PyStr "x", parameter "x" "1" true);
                        (PyStr "y", parameter "y" "2" true)] = Some r →
            r ∈ source_xy ∧ r !! "ParameterName" = Some k)
  ∧ (∀ r, r ∈ source_xy →
          ∃ k, r !! "ParameterName" = Some k
               ∧ is_Some (dict_get k [(PyStr "x", parameter "x" "1" true);
                                      (PyStr "y", parameter "y" "2" true)])).
Proof.
  apply (reindex_sound source_xy "ParameterName" (sample_world [])
           (sample_world [])).
  reflexivity.
Defined.

(** X8: records that all have a name other than the key string are reindexed
    without an error, and each name is mapped to the last record of the
    list that has it: an earlier record of the same name is overwritten,
    not reported. *)
Theorem reindex_keeps_last_duplicate (l : list record) (key : string) :
  Forall (λ r : record, ∃ n, r !! key = Some n ∧ n ≠ PyStr key) l →
  ∃ d, (∀ w, change_list_to_dict l key w = (Ok d, w))
       ∧ ∀ n, dict_get n d = last (filter (λ r : record, r !! key = Some n) l).
Proof.
  intros Hl.
  destruct (reindex_loop_accepts key l Hl [] ltac:(apply not_elem_of_nil))
    as (d & Hd & _ & Hlast & _).
  exists d. split; [done|]. intros n. rewrite Hlast.
  by destruct (last _).
Qed.

Lemma reindex_keeps_last_duplicate_witness :
  ∃ d, (∀ w, change_list_to_dict
               [parameter "max_connections" "100" true;
                parameter "max_connections" "200" true] "ParameterName" w
             = (Ok d, w))
       ∧ ∀ n, dict_get n d =
              last (filter (λ r : record, r !! "ParameterName" = Some n)
                      [parameter "max_connections" "100" true;
                       parameter "max_connections" "200" true]).
Proof.
  apply (reindex_keeps_last_duplicate
           [parameter "max_connections" "100" true;
            parameter "max_connections" "200" true] "ParameterName").
  repeat constructor; eexists; (split; [reflexivity|done]).
Defined.

Lemma keyed_by_length key (l : list record) :
  Forall (λ r : record, is_Some (r !! key)) l →
  length (keyed_by key l) = length l.
Proof.
  induction l as [|r l IH]; [done|]. intros [[n Hn] Hl]%Forall_cons.
  unfold keyed_by. cbn [omap list_omap]. rewrite Hn. cbn.
  f_equal. by apply IH.
Qed.

(** X9: records with different names, none of them the key string, are
    reindexed into one entry each, in list order: the mapping is as long
    as the list. *)
Theorem reindex_unique_names (l : list record) (key : string) (w : world) :
  Forall (λ r : record, ∃ n, r !! key = Some n ∧ n ≠ PyStr key) l →
  NoDup (keyed_by key l).*1 →
  change_list_to_dict l key w = (Ok (keyed_by key l), w)
  ∧ length (keyed_by key l) = length l.
Proof.
  intros Hl Hnd.
  destruct (reindex_loop_accepts key l Hl [] ltac:(apply not_elem_of_nil))
    as (d & Hd & _ & _ & Hexact).
  split.
  - unfold change_list_to_dict. rewrite Hd. by rewrite (Hexact Hnd).
  - apply keyed_by_length. eapply Forall_impl; [exact Hl|].
    intros r (n & Hn & _). by rewrite Hn.
Qed.

Lemma reindex_unique_names_witness :
  change_list_to_dict source_xy "ParameterName" (sample_world []) =
    (Ok (keyed_by "ParameterName" source_xy), sample_world [])
  ∧ length (keyed_by "ParameterName" source_xy) = length source_xy.
Proof.
  apply (reindex_unique_names source_xy "ParameterName" (sample_world [])).
  - repeat constructor; eexists; (split; [reflexivity|done]).
  - change (NoDup [PyStr "x"; PyStr "y"]).
    apply NoDup_cons. split; [by intros [=]%list_elem_of_singleton|].
    apply NoDup_singleton.
Defined.

(** X10: a record without the key field, after records that have a name other
    than the key string, makes the reindexing end with KeyError. *)
Theorem reindex_missing_key (before after : list record) (r : record)
    (key : string) (w : world) :
  Forall (λ r : record, ∃ n, r !! key = Some n ∧ n ≠ PyStr key) before →
  r !! key = None →
  change_list_to_dict (before ++ r :: after) key w =
    (Raised (KeyError (PyStr key)), w).
Proof.
  intros Hbefore Hr.
  destruct (reindex_loop_accepts key before Hbefore []
              ltac:(apply not_elem_of_nil)) as (d & Hd & Hkey & _).
  unfold change_list_to_dict. rewrite for_each_app, bind_run, Hd.
  cbn [for_each]. unfold dict_contains, dict_keys.
  rewrite bool_decide_eq_false_2 by done.
  mrun. unfold getitem. rewrite Hr. reflexivity.
Qed.

Lemma reindex_missing_key_witness :
  change_list_to_dict
    ([parameter "x" "1" true] ++ {[ "ParameterValue" := PyStr "2" ]}
       :: [parameter "z" "3" true]) "ParameterName" (sample_world []) =
    (Raised (KeyError (PyStr "ParameterName")), sample_world []).
Proof.
  apply (reindex_missing_key [parameter "x" "1" true] [parameter "z" "3" true]
           {[ "ParameterValue" := PyStr "2" ]} "ParameterName" (sample_world [])).
  - repeat constructor; eexists; (split; [reflexivity|done]).
  - reflexivity.
Defined.

(** X11: the exception "This key name is not unique." is raised when a record
    is named by the key string itself and is not the last of the list,
    whether or not any name occurs twice. *)
Theorem reindex_rejects_name_equal_to_key (before after : list record)
    (r next : record) (key : string) (w : world) :
  Forall (λ r : record, ∃ n, r !! key = Some n ∧ n ≠ PyStr key) before →
  r !! key = Some (PyStr key) →
  change_list_to_dict (before ++ r :: next :: after) key w =
    (Raised (Exception "This key name is not unique."), w).
Proof.
  intros Hbefore Hr.
  destruct (reindex_loop_accepts key before Hbefore []
              ltac:(apply not_elem_of_nil)) as (d & Hd & Hkey & _).
  unfold change_list_to_dict. rewrite for_each_app, bind_run, Hd.
  cbn [for_each]. unfold dict_contains, dict_keys.
  rewrite bool_decide_eq_false_2 by done.
  mrun. unfold getitem. rewrite Hr. mrun.
  rewrite bool_decide_eq_true_2; [done|].
  apply dict_set_key_in. by left.
Qed.

Lemma reindex_rejects_name_equal_to_key_witness :
  change_list_to_dict
    ([parameter "x" "1" true] ++ parameter "ParameterName" "2" true
       :: parameter "z" "3" true :: []) "ParameterName" (sample_world []) =
    (Raised (Exception "This key name is not unique."), sample_world []).
Proof.
  apply (reindex_rejects_name_equal_to_key [parameter "x" "1" true] []
           (parameter "ParameterName" "2" true) (parameter "z" "3" true)
           "ParameterName" (sample_world [])).
  - repeat constructor; eexists; (split; [reflexivity|done]).
  - reflexivity.
Defined.

(** ** More on the comparison *)

Lemma dest_entries_of_deleted (sd dd : pydict) (deleted : list pyval) :
  (∀ n, n ∈ deleted → n ∈ sd.*1) →
  concat (dest_entry sd <$> filter (λ kv, kv.1 ∉ deleted) dd)
  = concat (dest_entry sd <$> dd).
Proof.
  intros Hdel. induction dd as [|[n v] dd IH]; [done|].
  rewrite filter_cons. cbn [fst]. destruct (decide (n ∉ deleted)) as [Hn|Hn].
  - cbn [fmap list_fmap concat]. by rewrite IH.
  - cbn [fmap list_fmap concat]. rewrite IH.
    assert (Hin : n ∈ sd.*1).
    { apply Hdel. by destruct (decide (n ∈ deleted)). }
    unfold dest_entry at 2, dict_contains, dict_keys. cbn [fst].
    by rewrite bool_decide_eq_true_2.
Qed.

Lemma compare_rds_parameters_exact sc sg dc dg (w w1 : world) sf df
    (src dst : list record) (sd dd : pydict) (return_list : bool) :
  compare_construct_variables sc sg dc dg w = (Ok (sf, src, df, dst), w1) →
  (change_list_to_dict src "ParameterName" w1).1 = Ok sd →
  (change_list_to_dict dst "ParameterName" w1).1 = Ok dd →
  compare_rds_parameters sc sg dc dg return_list w =
    (Ok (if return_list
         then Some (filter (λ r, has_field "ParameterValue" r)
                      (filter (differs dd) sd).*2)
         else None),
     add_out w1
       (header_lines sg dg sf src df dst
        ++ concat (source_entry dd <$> sd)
        ++ concat (dest_entry sd <$> dd)
        ++ [[T ""]; [T ""]]
        ++ (if return_list then [] else [[T "Complete."]]))).
Proof.
  intros Hvars Hsd Hdd.
  destruct (compare_rds_parameters_run sc sg dc dg return_list w w1 sf df
              src dst sd dd Hvars Hsd Hdd) as (deleted & Hdel & ->).
  by rewrite dest_entries_of_deleted, <- app_assoc.
Qed.

(** X12: whenever the two collections are fetched and reindexed, the comparison
    ends without an error in either mode.  The diff list is made of the
    records of the source mapping, in its order, that are source-only or
    changed and have a value; the report is the header, then the entries of
    the source mapping in its order, then the entries of the destination
    mapping in its order for the names the source does not have, then two
    empty lines.  The mode changes nothing but the result, the list or
    nothing, and the closing line "Complete." of the report-only mode. *)
Theorem compare_in_closed_form sc sg dc dg (w w1 : world) sf df
    (src dst : list record) (sd dd : pydict) (return_list : bool) :
  compare_construct_variables sc sg dc dg w = (Ok (sf, src, df, dst), w1) →
  (change_list_to_dict src "ParameterName" w1).1 = Ok sd →
  (change_list_to_dict dst "ParameterName" w1).1 = Ok dd →
  compare_rds_parameters sc sg dc dg return_list w =
    (Ok (if return_list
         then Some (filter (λ r, has_field "ParameterValue" r)
                      (filter (differs dd) sd).*2)
         else None),
     add_out w1
       (header_lines sg dg sf src df dst
        ++ concat (source_entry dd <$> sd)
        ++ concat (dest_entry sd <$> dd)
        ++ [[T ""]; [T ""]]
        ++ (if return_list then [] else [[T "Complete."]]))).
Proof. apply compare_rds_parameters_exact. Qed.


Lemma compare_in_closed_form_witness :
  compare_rds_parameters east "pg-a" west "pg-b" false
    (sample_world (compare_script source_xy dest_yz)) =
    (Ok None,
     add_out (compare_fetched [])
       (header_lines "pg-a" "pg-b" (PyStr "mysql8.0") source_xy
          (PyStr "mysql8.0") dest_yz
        ++ concat (source_entry (keyed_by "ParameterName" dest_yz)
                     <$> keyed_by "ParameterName" source_xy)
        ++ concat (dest_entry (keyed_by "ParameterName" source_xy)
                     <$> keyed_by "ParameterName" dest_yz)
        ++ [[T ""]; [T ""]]
        ++ [[T "Complete."]])).
Proof.
  apply (compare_in_closed_form east "pg-a" west "pg-b"
           (sample_world (compare_script source_xy dest_yz))
           (compare_fetched []) (PyStr "mysql8.0") (PyStr "mysql8.0")
           source_xy dest_yz
           (keyed_by "ParameterName" source_xy)
           (keyed_by "ParameterName" dest_yz) false).
  - reflexivity.
  - reflexivity.
  - reflexivity.
Defined.

Lemma concat_fmap_nil {A B} (f : A → list B) (l : list A) :
  (∀ x, x ∈ l → f x = []) → concat (f <$> l) = [].
Proof.
  induction l as [|x l IH]; [done|]. intros Hf. cbn.
  rewrite (Hf x) by left. apply IH. intros; apply Hf. by right.
Qed.

Lemma elem_of_concat_fmap {A B} (f : A → list B) (l : list A) (y : B) :
  y ∈ concat (f <$> l) → ∃ x, x ∈ l ∧ y ∈ f x.
Proof.
  induction l as [|x l IH]; cbn; [by intros ?%elem_of_nil|].
  intros [Hy|Hy]%elem_of_app.
  - exists x. split; [left|done].
  - destruct (IH Hy) as (x' & ? & ?). exists x'. split; [by right|done].
Qed.

Lemma filter_none {A} (P : A → Prop) `{∀ x, Decision (P x)} (l : list A) :
  (∀ x, x ∈ l → ¬ P x) → filter P l = [].
Proof.
  induction l as [|x l IH]; [done|]. intros HP.
  rewrite filter_cons_False by (apply HP; left).
  apply IH. intros; apply HP. by right.
Qed.

(** X13: comparing a collection with itself (the two fetches return the same
    records): the diff list is empty and the report has nothing after its
    header but the two closing empty lines. *)
Theorem compare_with_itself sc sg dc dg (w w1 : world) sf df
    (src : list record) (sd : pydict) :
  compare_construct_variables sc sg dc dg w = (Ok (sf, src, df, src), w1) →
  (change_list_to_dict src "ParameterName" w1).1 = Ok sd →
  compare_rds_parameters sc sg dc dg true w =
    (Ok (Some []),
     add_out w1 (header_lines sg dg sf src df src ++ [[T ""]; [T ""]])).
Proof.
  intros Hvars Hsd.
  rewrite (compare_rds_parameters_exact sc sg dc dg w w1 sf df src src sd sd true
             Hvars Hsd Hsd).
  destruct (change_list_to_dict_indexed _ _ _ _ Hsd) as (Hnd & _ & _).
  assert (Hsame : ∀ item, item ∈ sd → dict_get item.1 sd = Some item.2).
  { intros [n v] Hin. by apply dict_get_NoDup. }
  assert (Hnone : filter (differs sd) sd = []).
  { apply filter_none. intros item Hin. unfold differs.
    rewrite (Hsame item Hin). rewrite bool_decide_eq_false_2 by tauto. tauto. }
  assert (Hsrc : concat (source_entry sd <$> sd) = []).
  { apply concat_fmap_nil. intros item Hin. unfold source_entry.
    rewrite (Hsame item Hin). by rewrite bool_decide_eq_false_2 by tauto. }
  assert (Hdst : concat (dest_entry sd <$> sd) = []).
  { apply concat_fmap_nil. intros item Hin.
    unfold dest_entry, dict_contains, dict_keys.
    rewrite bool_decide_eq_true_2; [done|]. by apply list_elem_of_fmap_2. }
  rewrite Hnone, Hsrc, Hdst. cbn [fmap list_fmap]. rewrite filter_nil.
  by rewrite !app_nil_r.
Qed.

Lemma compare_with_itself_witness :
  compare_rds_parameters east "pg-a" west "pg-b" true
    (sample_world (compare_script source_xy source_xy)) =
    (Ok (Some []),
     add_out (compare_fetched [])
       (header_lines "pg-a" "pg-b" (PyStr "mysql8.0") source_xy
          (PyStr "mysql8.0") source_xy ++ [[T ""]; [T ""]])).
Proof.
  apply (compare_with_itself east "pg-a" west "pg-b"
           (sample_world (compare_script source_xy source_xy))
           (compare_fetched []) (PyStr "mysql8.0") (PyStr "mysql8.0")
           source_xy (keyed_by "ParameterName" source_xy)).
  - reflexivity.
  - reflexivity.
Defined.

(** X14: a record that the two mappings have under the same name, equal in
    every field, is silent: it is not in the diff list and the line of its
    name is nowhere in the report. *)
Theorem compare_equal_record_is_silent sc sg dc dg (w w1 : world) sf df
    (src dst : list record) (sd dd : pydict) (n : pyval) (s : record) :
  compare_construct_variables sc sg dc dg w = (Ok (sf, src, df, dst), w1) →
  (change_list_to_dict src "ParameterName" w1).1 = Ok sd →
  (change_list_to_dict dst "ParameterName" w1).1 = Ok dd →
  dict_get n sd = Some s →
  dict_get n dd = Some s →
  ∃ diff report,
    compare_rds_parameters sc sg dc dg true w =
      (Ok (Some diff), add_out w1 report)
    ∧ (s ∉ diff)
    ∧ [V n; T ":"] ∉ report.
Proof.
  intros Hvars Hsd Hdd Hs Hd.
  eexists _, _. split.
  { exact (compare_rds_parameters_exact sc sg dc dg w w1 sf df src dst sd dd true
             Hvars Hsd Hdd). }
  destruct (change_list_to_dict_indexed _ _ _ _ Hsd) as (Hsnd & Hsel & _).
  assert (Hitem : (n, s) ∈ sd) by by apply dict_get_elem.
  split.
  - intros (_ & n' & Hin & Hdiff)%diff_list_elem.
    destruct (Hsel _ _ Hin) as [_ Hn'], (Hsel _ _ Hitem) as [_ Hn].
    assert (n' = n) as -> by congruence.
    unfold differs in Hdiff. cbn [fst snd] in Hdiff. rewrite Hd in Hdiff.
    by apply bool_decide_eq_true in Hdiff.
  - unfold header_lines. rewrite !elem_of_app. intros [Hh|[Hsrc|[Hdst|[Hb|Hc]]]].
    + destruct Hh as [Hh|[Hh|Hh]].
      * repeat (apply elem_of_cons in Hh as [[=]|Hh]). by apply elem_of_nil in Hh.
      * case_bool_decide;
          repeat (apply elem_of_cons in Hh as [[=]|Hh]); by apply elem_of_nil in Hh.
      * repeat (apply elem_of_cons in Hh as [[=]|Hh]). by apply elem_of_nil in Hh.
    + apply elem_of_concat_fmap in Hsrc as ([n' s'] & Hin & Hline).
      unfold source_entry in Hline. cbn [fst snd] in Hline.
      destruct (dict_get n' dd) as [d'|] eqn:Hd'.
      * case_bool_decide as Hne; [|by apply elem_of_nil in Hline].
        repeat (apply elem_of_cons in Hline as [[=]|Hline]);
          [|by apply elem_of_nil in Hline].
        subst n'. rewrite (dict_get_NoDup _ _ _ Hsnd Hin) in Hs. congruence.
      * repeat (apply elem_of_cons in Hline as [[=]|Hline]);
          [|by apply elem_of_nil in Hline].
        congruence.
    + apply elem_of_concat_fmap in Hdst as ([n' d'] & Hin & Hline).
      unfold dest_entry, dict_contains, dict_keys in Hline. cbn [fst snd] in Hline.
      case_bool_decide as Hkey; [by apply elem_of_nil in Hline|].
      repeat (apply elem_of_cons in Hline as [[=]|Hline]);
        [|by apply elem_of_nil in Hline].
      subst n'. apply Hkey. by apply (list_elem_of_fmap_2 fst _ (n, s)).
    + repeat (apply elem_of_cons in Hb as [[=]|Hb]). by apply elem_of_nil in Hb.
    + by apply elem_of_nil in Hc.
Qed.

Lemma compare_equal_record_is_silent_witness :
  ∃ diff report,
    compare_rds_parameters east "pg-a" west "pg-b" true
      (sample_world
         (compare_script [parameter "p1" "10" true]
            [parameter "p1" "10" true; parameter "p2" "20" true])) =
      (Ok (Some diff), add_out (compare_fetched []) report)
    ∧ (parameter "p1" "10" true ∉ diff)
    ∧ [V (PyStr "p1"); T ":"] ∉ report.
Proof.
  apply (compare_equal_record_is_silent east "pg-a" west "pg-b"
           (sample_world
              (compare_script [parameter "p1" "10" true]
                 [parameter "p1" "10" true; parameter "p2" "20" true]))
           (compare_fetched []) (PyStr "mysql8.0") (PyStr "mysql8.0")
           [parameter "p1" "10" true]
           [parameter "p1" "10" true; parameter "p2" "20" true]
           (keyed_by "ParameterName" [parameter "p1" "10" true])
           (keyed_by "ParameterName"
              [parameter "p1" "10" true; parameter "p2" "20" true])).
  - reflexivity.
  - reflexivity.
  - reflexivity.
  - reflexivity.
  - reflexivity.
Defined.

(** ** The calls a workflow can issue *)

Lemma only_describes_only_calls {A} (P : client * request → Prop) (m : M A) :
  (∀ cr, is_describe cr.2 → P cr) → only_describes m → only_calls P m.
Proof.
  intros HP Hm w r w' Hrun. destruct (Hm w r w' Hrun) as (new & Hnew & Hall).
  exists new. split; [done|]. eapply Forall_impl; [exact Hall|]. auto.
Qed.

Lemma bind_only_calls {A B} P (m : M A) (f : A → M B) :
  only_calls P m → (∀ a, only_calls P (f a)) → only_calls P (m ≫= f).
Proof.
  intros Hm Hf w r w'. rewrite bind_run.
  destruct (m w) as [[a| |] w1] eqn:Hmw.
  - intros Hfa. destruct (Hm _ _ _ Hmw) as (new1 & E1 & H1).
    destruct (Hf a _ _ _ Hfa) as (new2 & E2 & H2).
    exists (new1 ++ new2). split; [|by apply Forall_app].
    by rewrite E2, E1, app_assoc.
  - intros [= <- <-]. eauto.
  - intros [= <- <-]. eauto.
Qed.

Lemma for_each_only_calls {A S} P (xs : list A) (body : A → S → M S) :
  (∀ x s, only_calls P (body x s)) → ∀ s, only_calls P (for_each xs body s).
Proof.
  intros Hbody. induction xs as [|x xs IH]; intros s.
  - intros w r w' [= <- <-]. exists []. by rewrite app_nil_r.
  - cbn [for_each]. by apply bind_only_calls.
Qed.

Lemma call_only_calls (P : client * request → Prop) c req :
  P (c, req) → only_calls P (call c req).
Proof.
  intros HP w r w' Hcall. exists [(c, req)]. split; [|by apply Forall_singleton].
  unfold call in Hcall. destruct (replies w) as [|[|]]; by simplify_eq.
Qed.

Lemma silent_only_calls {A} P (m : M A) :
  (∀ w, calls (m w).2 = calls w) → only_calls P m.
Proof.
  intros Hm w r w' Hrun. exists []. split; [|constructor].
  rewrite app_nil_r, <- (Hm w). by rewrite Hrun.
Qed.

Lemma getitem_only_calls P (p : record) k : only_calls P (getitem p k).
Proof.
  apply silent_only_calls. intros w. unfold getitem. by destruct (p !! k).
Qed.

Lemma print_only_describes l : only_describes (print l).
Proof. intros w r w' [= <- <-]. exists []. cbn. by rewrite app_nil_r. Qed.

Lemma dict_getitem_only_describes d k : only_describes (dict_getitem d k).
Proof.
  unfold dict_getitem.
  destruct (dict_get k d); [apply ret_only_describes|apply raise_only_describes].
Qed.

Lemma change_list_to_dict_only_describes l key :
  only_describes (change_list_to_dict l key).
Proof.
  apply for_each_only_describes. intros r acc.
  destruct (dict_contains (PyStr key) acc); [apply raise_only_describes|].
  apply bind_only_describes; [apply getitem_only_describes|].
  intros; apply ret_only_describes.
Qed.

Ltac reads_step :=
  first
    [ apply ret_only_describes
    | apply raise_only_describes
    | apply print_only_describes
    | apply getitem_only_describes
    | apply dict_getitem_only_describes
    | apply summary_item_only_describes
    | apply change_list_to_dict_only_describes
    | apply return_all_parameters_only_describes
    | apply return_parameter_groups_only_describes
    | apply modifiable_filter_only_describes
    | apply call_only_describes; reflexivity
    | apply bind_only_describes; [|intros ?] ].

Lemma compare_collections_only_describes src dst return_list :
  only_describes (compare_collections src dst return_list).
Proof.
  unfold compare_collections, compare_source_pass, compare_dest_pass.
  repeat reads_step.
  - apply for_each_only_describes. intros [n v] [diff dest].
    unfold compare_source_step.
    destruct (negb (dict_contains n dest)); repeat reads_step.
    case_bool_decide; repeat reads_step.
  - match goal with p : (list record * pydict)%type |- _ => destruct p end.
    repeat reads_step.
    + apply for_each_only_describes. intros [n v] [].
      unfold compare_dest_step.
      destruct (negb (dict_contains n _)); repeat reads_step.
    + case_bool_decide; repeat reads_step.
Qed.

Lemma compare_rds_parameters_only_describes sc sg dc dg return_list :
  only_describes (compare_rds_parameters sc sg dc dg return_list).
Proof.
  unfold compare_rds_parameters. apply bind_only_describes.
  - unfold compare_construct_variables. repeat reads_step.
  - intros [[[sf sp] df] dp]. apply bind_only_describes.
    + unfold compare_print_header. repeat reads_step.
      case_bool_decide; repeat reads_step.
    + intros _. apply compare_collections_only_describes.
Qed.

(** X15: whatever the service answers and however the comparison ends, in
    either mode, every call it has issued is a describe call: comparing
    changes nothing on the service. *)
Theorem compare_only_reads sc sg dc dg return_list (w : world) :
  ∃ new,
    calls (compare_rds_parameters sc sg dc dg return_list w).2 = calls w ++ new
    ∧ Forall (λ cr, is_describe cr.2) new.
Proof.
  destruct (compare_rds_parameters sc sg dc dg return_list w) as [r w'] eqn:Hrun.
  exact (compare_rds_parameters_only_describes sc sg dc dg return_list w r w' Hrun).
Qed.

Lemma post_parameters_only_calls c g ps :
  only_calls (λ cr, ∃ b, cr = (c, modify_db_parameter_group g b))
    (post_parameters_to_group c g ps).
Proof.
  unfold post_parameters_to_group. case_bool_decide.
  { intros w r w' [= <- <-]. exists []. by rewrite app_nil_r. }
  destruct (chunks ps 20) as [cs|].
  2:{ intros w r w' [= <- <-]. exists []. by rewrite app_nil_r. }
  apply for_each_only_calls. intros chunk [].
  apply bind_only_calls; [apply call_only_calls; eauto|]. intros _.
  apply for_each_only_calls. intros p [].
  apply bind_only_calls; [apply getitem_only_calls|]. intros name.
  apply bind_only_calls; [apply getitem_only_calls|]. intros value.
  by apply silent_only_calls.
Qed.

Lemma merge_rds_parameters_only_calls sc sg dc dg :
  only_calls (λ cr, is_describe cr.2
                    ∨ ∃ b, cr = (dc, modify_db_parameter_group dg b))
    (merge_rds_parameters sc sg dc dg).
Proof.
  unfold merge_rds_parameters. apply bind_only_calls.
  { apply only_describes_only_calls; [by left|].
    apply compare_rds_parameters_only_describes. }
  intros diff. apply bind_only_calls.
  { apply only_describes_only_calls; [by left|]. apply print_only_describes. }
  intros _. destruct diff as [ps|].
  - intros w r w' Hrun.
    destruct (post_parameters_only_calls dc dg ps w r w' Hrun) as (new & ? & Hall).
    exists new. split; [done|]. eapply Forall_impl; [exact Hall|]. by right.
  - intros w r w' [= <- <-]. exists []. by rewrite app_nil_r.
Qed.

(** X16: whatever the service answers and however the merge ends, every call it
    has issued is a describe call or a modify_db_parameter_group on the
    destination group through the destination client: a merge creates no
    group and modifies no other group. *)
Theorem merge_only_modifies_destination sc sg dc dg (w : world) :
  ∃ new,
    calls (merge_rds_parameters sc sg dc dg w).2 = calls w ++ new
    ∧ Forall (λ cr, is_describe cr.2
                    ∨ ∃ b, cr = (dc, modify_db_parameter_group dg b)) new.
Proof.
  destruct (merge_rds_parameters sc sg dc dg w) as [r w'] eqn:Hrun.
  exact (merge_rds_parameters_only_calls sc sg dc dg w r w' Hrun).
Qed.

Lemma copy_rds_parameters_only_calls sc sg dc dg :
  only_calls (λ cr, is_describe cr.2
                    ∨ (∃ family description tags,
                         cr = (dc, create_db_parameter_group dg family
                                     description tags))
                    ∨ ∃ b, cr = (dc, modify_db_parameter_group dg b))
    (copy_rds_parameters sc sg dc dg).
Proof.
  unfold copy_rds_parameters. apply bind_only_calls.
  { apply only_describes_only_calls; [by left|].
    apply copy_construct_variables_only_describes. }
  intros [[[[summary family] description] ps] groups].
  case_bool_decide.
  { apply only_describes_only_calls; [by left|]. apply raise_only_describes. }
  apply bind_only_calls.
  { apply only_describes_only_calls; [by left|]. apply print_only_describes. }
  intros _. apply bind_only_calls.
  { apply only_describes_only_calls; [by left|]. apply print_only_describes. }
  intros _. apply bind_only_calls.
  { apply only_describes_only_calls; [by left|].
    apply summary_item_only_describes. }
  intros arn. apply bind_only_calls.
  { intros w r w' [= <- <-]. exists []. by rewrite app_nil_r. }
  intros command. apply bind_only_calls.
  { apply call_only_calls. right. left. eauto. }
  intros _. apply bind_only_calls.
  - intros w r w' Hrun.
    destruct (post_parameters_only_calls dc dg ps w r w' Hrun) as (new & ? & Hall).
    exists new. split; [done|]. eapply Forall_impl; [exact Hall|].
    intros cr ?. right. by right.
  - intros _. apply only_describes_only_calls; [by left|].
    apply print_only_describes.
Qed.

(** X17: whatever the service answers and however the copy ends, every call it
    has issued is a describe call, or the creation of the destination
    group, or a modify_db_parameter_group on the destination group, the
    last two through the destination client. *)
Theorem copy_only_writes_destination sc sg dc dg (w : world) :
  ∃ new,
    calls (copy_rds_parameters sc sg dc dg w).2 = calls w ++ new
    ∧ Forall (λ cr, is_describe cr.2
                    ∨ (∃ family description tags,
                         cr = (dc, create_db_parameter_group dg family
                                     description tags))
                    ∨ ∃ b, cr = (dc, modify_db_parameter_group dg b)) new.
Proof.
  destruct (copy_rds_parameters sc sg dc dg w) as [r w'] eqn:Hrun.
  exact (copy_rds_parameters_only_calls sc sg dc dg w r w' Hrun).
Qed.

(** ** The workflows from end to end *)

(** X18: whenever the two collections are fetched and reindexed and the service
    accepts the calls, the merge prints the report of the comparison and
    its own line, then sends the diff list (the source-only and changed
    source records that have a value) to the destination group in batches
    of at most 20, reporting each record; with an empty diff list it sends
    nothing. *)
Theorem merge_applies_diff_list sc sg dc dg (w w1 : world) sf df
    (src dst : list record) (sd dd : pydict) (answers : list response)
    (rest : list reply) :
  compare_construct_variables sc sg dc dg w = (Ok (sf, src, df, dst), w1) →
  (change_list_to_dict src "ParameterName" w1).1 = Ok sd →
  (change_list_to_dict dst "ParameterName" w1).1 = Ok dd →
  replies w1 = (Answer <$> answers) ++ rest →
  Z.of_nat (length answers) =
    ceil_div (Z.of_nat (length (filter (λ r, has_field "ParameterValue" r)
                                  (filter (differs dd) sd).*2))) 20 →
  ∃ batches,
    merge_rds_parameters sc sg dc dg w =
      (Ok tt,
       World (environ w1) (argv w1) rest
         (calls w1 ++ ((λ b, (dc, modify_db_parameter_group dg b)) <$> batches))
         (stdout w1
          ++ (header_lines sg dg sf src df dst
              ++ concat (source_entry dd <$> sd)
              ++ concat (dest_entry sd <$> dd)
              ++ [[T ""]; [T ""]])
          ++ [[T "Merging differences from '"; V (PyStr sg); T "' into '";
               V (PyStr dg); T "'."]]
          ++ (applied_line <$> filter (λ r, has_field "ParameterValue" r)
                                 (filter (differs dd) sd).*2)))
    ∧ concat batches = filter (λ r, has_field "ParameterValue" r)
                         (filter (differs dd) sd).*2
    ∧ Forall (λ b, Z.of_nat (length b) ≤ 20) batches.
Proof.
  intros Hvars Hsd Hdd Hrep Hlen.
  set (diff := filter (λ r, has_field "ParameterValue" r)
                 (filter (differs dd) sd).*2) in *.
  destruct (change_list_to_dict_indexed _ _ _ _ Hsd) as (_ & Hsel & _).
  assert (Hvalid : Forall (λ p : record, is_Some (p !! "ParameterName")
                              ∧ is_Some (p !! "ParameterValue")) diff).
  { apply Forall_forall. intros x (Hv & n & Hin & _)%diff_list_elem.
    destruct (Hsel _ _ Hin) as [_ Hn]. split; [by rewrite Hn|done]. }
  pose proof (compare_rds_parameters_exact sc sg dc dg w w1 sf df src dst
                sd dd true Hvars Hsd Hdd) as Hcompare.
  fold diff in Hcompare. rewrite app_nil_r in Hcompare.
  set (report := header_lines sg dg sf src df dst
                 ++ concat (source_entry dd <$> sd)
                 ++ concat (dest_entry sd <$> dd) ++ [[T ""]; [T ""]]) in *.
  set (merging := [T "Merging differences from '"; V (PyStr sg);
                   T "' into '"; V (PyStr dg); T "'."]).
  destruct (post_parameters_run dc dg diff answers rest
              (add_out (add_out w1 report) [merging]) Hvalid Hrep Hlen)
    as (batches & Hpost & Hcat & Hsize & _).
  exists batches. split; [|done]. subst merging.
  unfold merge_rds_parameters. rewrite (bind_ok _ _ _ _ _ Hcompare).
  rewrite bind_run, print_run. cbv beta iota. rewrite Hpost.
  cbn [add_out environ argv replies calls stdout].
  by rewrite <- !app_assoc.
Qed.

Lemma merge_applies_diff_list_witness :
  ∃ batches,
    merge_rds_parameters east "pg-a" west "pg-b"
      (sample_world (compare_script source_xy dest_yz ++ [Answer accepted])) =
      (Ok tt,
       World ∅ ["rds_param_group_util.py"] []
         (calls (compare_fetched [Answer accepted])
          ++ ((λ b, (west, modify_db_parameter_group "pg-b" b)) <$> batches))
         (stdout (compare_fetched [Answer accepted])
          ++ (header_lines "pg-a" "pg-b" (PyStr "mysql8.0") source_xy
                (PyStr "mysql8.0") dest_yz
              ++ concat (source_entry (keyed_by "ParameterName" dest_yz)
                           <$> keyed_by "ParameterName" source_xy)
              ++ concat (dest_entry (keyed_by "ParameterName" source_xy)
                           <$> keyed_by "ParameterName" dest_yz)
              ++ [[T ""]; [T ""]])
          ++ [[T "Merging differences from '"; V (PyStr "pg-a"); T "' into '";
               V (PyStr "pg-b"); T "'."]]
          ++ (applied_line <$> filter (λ r, has_field "ParameterValue" r)
                (filter (differs (keyed_by "ParameterName" dest_yz))
                   (keyed_by "ParameterName" source_xy)).*2)))
    ∧ concat batches = filter (λ r, has_field "ParameterValue" r)
                         (filter (differs (keyed_by "ParameterName" dest_yz))
                            (keyed_by "ParameterName" source_xy)).*2
    ∧ Forall (λ b, Z.of_nat (length b) ≤ 20) batches.
Proof.
  apply (merge_applies_diff_list east "pg-a" west "pg-b"
           (sample_world (compare_script source_xy dest_yz ++ [Answer accepted]))
           (compare_fetched [Answer accepted])
           (PyStr "mysql8.0") (PyStr "mysql8.0") source_xy dest_yz
           (keyed_by "ParameterName" source_xy)
           (keyed_by "ParameterName" dest_yz) [accepted] []).
  - reflexivity.
  - reflexivity.
  - reflexivity.
  - reflexivity.
  - reflexivity.
Defined.

Lemma summary_item_run (summary : response) (group : record)
    (others : list record) k v w :
  DBParameterGroups summary = Some (group :: others) →
  group !! k = Some v →
  summary_item summary k w = (Ok v, w).
Proof.
  intros Hsummary Hk. unfold summary_item. rewrite Hsummary.
  rewrite (bind_ok _ _ _ (group :: others) w) by reflexivity.
  rewrite (bind_ok _ _ _ group w) by reflexivity.
  unfold getitem. by rewrite Hk.
Qed.

(** X19: whenever the variables of a copy are fetched, the destination name is
    not among the listed groups, the source summary has its ARN, the
    parameters to set have their names and the service accepts the calls,
    the copy creates the destination group with the family and description
    of the source and the three tags of origin, then sends the parameters
    to it in batches of at most 20, reporting each, and ends with
    "Complete."; with no parameter to set it only creates the group. *)
Theorem copy_creates_then_applies sc sg dc dg (w w1 : world)
    (summary : response) (group : record) (others : list record)
    (family description arn : pyval) (ps : list record) (groups : list pyval)
    (created : response) (answers : list response) (rest : list reply) :
  copy_construct_variables sc sg dc w =
    (Ok (summary, family, description, ps, groups), w1) →
  PyStr dg ∉ groups →
  DBParameterGroups summary = Some (group :: others) →
  group !! "DBParameterGroupArn" = Some arn →
  Forall (λ p : record, is_Some (p !! "ParameterName")) ps →
  replies w1 = Answer created :: (Answer <$> answers) ++ rest →
  Z.of_nat (length answers) = ceil_div (Z.of_nat (length ps)) 20 →
  ∃ batches,
    copy_rds_parameters sc sg dc dg w =
      (Ok tt,
       World (environ w1) (argv w1) rest
         (calls w1
          ++ (dc, create_db_parameter_group dg family description
                    [("CopiedFrom", arn);
                     ("CopiedUsingCmd", PyStr (String.concat " " (argv w1)));
                     ("Repo",
                      PyStr "github.com/EpiJunkie/aws_rds_parameter_groups_utility")])
          :: ((λ b, (dc, modify_db_parameter_group dg b)) <$> batches))
         (stdout w1
          ++ [[T "Created "; V (PyStr dg); T ":"];
              [T "  Number of 'source_parameters' to set: "; N (length ps)]]
          ++ (applied_line <$> ps)
          ++ [[T "Complete."]]))
    ∧ concat batches = ps
    ∧ Forall (λ b, Z.of_nat (length b) ≤ 20) batches.
Proof.
  intros Hvars Hfree Hsummary Harn Hnames Hrep Hlen.
  assert (Hvalid : Forall (λ p : record, is_Some (p !! "ParameterName")
                              ∧ is_Some (p !! "ParameterValue")) ps).
  { pose proof Hvars as Hvars'. unfold copy_construct_variables in Hvars'.
    minv. unfold mret, M_ret in Hvars'. simplify_eq.
    match goal with
    | H : return_all_modifiable_parameters_with_value_from_parameter_group _ _ _
          = _ |- _ => apply modifiable_filter_values in H
    end.
    apply Forall_forall. intros p Hp. split.
    - by apply (proj1 (Forall_forall _ _) Hnames).
    - by apply (proj1 (Forall_forall _ _) ltac:(eassumption)). }
  set (created_line := [T "Created "; V (PyStr dg); T ":"]).
  set (number_line := [T "  Number of 'source_parameters' to set: ";
                       N (length ps)]).
  set (w2 := add_out (add_out w1 [created_line]) [number_line]).
  set (w3 := World (environ w2) (argv w2) ((Answer <$> answers) ++ rest)
               (calls w2 ++ [(dc, create_db_parameter_group dg family description
                    [("CopiedFrom", arn);
                     ("CopiedUsingCmd", PyStr (String.concat " " (argv w1)));
                     ("Repo",
                      PyStr "github.com/EpiJunkie/aws_rds_parameter_groups_utility")])])
               (stdout w2)).
  destruct (post_parameters_run dc dg ps answers rest w3 Hvalid eq_refl Hlen)
    as (batches & Hpost & Hcat & Hsize & _).
  exists batches. split; [|done]. subst created_line number_line.
  unfold copy_rds_parameters. rewrite (bind_ok _ _ _ _ _ Hvars).
  rewrite bool_decide_eq_false_2 by done.
  rewrite bind_run, print_run. cbv beta iota.
  rewrite bind_run, print_run. cbv beta iota.
  rewrite (bind_ok _ _ _ _ _ (summary_item_run _ _ _ _ _ _ Hsummary Harn)).
  rewrite bind_run. unfold get_argv. cbv beta iota.
  rewrite bind_run. unfold call at 1.
  cbn [add_out environ argv replies calls stdout]. rewrite Hrep.
  cbv beta iota zeta. rewrite bind_run.
  subst w3 w2. cbn [add_out environ argv replies calls stdout] in Hpost.
  rewrite Hpost. rewrite print_run.
  unfold add_out. cbn [environ argv replies calls stdout].
  rewrite <- !app_assoc. reflexivity.
Qed.

Lemma copy_creates_then_applies_witness :
  ∃ batches,
    copy_rds_parameters east "pg-a" west "pg-c"
      (sample_world (copy_script ++ [Answer accepted; Answer accepted])) =
      (Ok tt,
       World ∅ ["rds_param_group_util.py"] []
         ([(east, describe_db_parameter_groups (Some "pg-a") None);
           (east, describe_db_parameters "pg-a" None);
           (west, describe_db_parameter_groups None None)]
          ++ (west, create_db_parameter_group "pg-c" (PyStr "mysql8.0")
                      (PyStr "sample")
                      [("CopiedFrom", PyStr "arn:aws:rds:pg:pg-a");
                       ("CopiedUsingCmd",
                        PyStr (String.concat " " ["rds_param_group_util.py"]));
                       ("Repo",
                        PyStr "github.com/EpiJunkie/aws_rds_parameter_groups_utility")])
          :: ((λ b, (west, modify_db_parameter_group "pg-c" b)) <$> batches))
         ([[T "Created "; V (PyStr "pg-c"); T ":"];
              [T "  Number of 'source_parameters' to set: ";
               N (length [parameter "a" "5" true])]]
          ++ (applied_line <$> [parameter "a" "5" true])
          ++ [[T "Complete."]]))
    ∧ concat batches = [parameter "a" "5" true]
    ∧ Forall (λ b, Z.of_nat (length b) ≤ 20) batches.
Proof.
  apply (copy_creates_then_applies east "pg-a" west "pg-c"
           (sample_world (copy_script ++ [Answer accepted; Answer accepted]))
           (World ∅ ["rds_param_group_util.py"]
              [Answer accepted; Answer accepted]
              [(east, describe_db_parameter_groups (Some "pg-a") None);
               (east, describe_db_parameters "pg-a" None);
               (west, describe_db_parameter_groups None None)] [])
           (group_summary "pg-a" "mysql8.0")
           {[ "DBParameterGroupName" := PyStr "pg-a";
              "DBParameterGroupFamily" := PyStr "mysql8.0";
              "Description" := PyStr "sample";
              "DBParameterGroupArn" := PyStr "arn:aws:rds:pg:pg-a" ]} []
           (PyStr "mysql8.0") (PyStr "sample") (PyStr "arn:aws:rds:pg:pg-a")
           [parameter "a" "5" true]
           [PyStr "default.mysql8.0"; PyStr "pg-b"]
           accepted [accepted] []).
  - reflexivity.
  - intros [[=]|[[=]|[]%elem_of_nil]%elem_of_cons]%elem_of_cons.
  - reflexivity.
  - reflexivity.
  - repeat constructor. by eexists.
  - reflexivity.
  - reflexivity.
Defined.

(** ** The command line *)

(** X20: without AWS_DEFAULT_REGION in the environment the script ends with
    KeyError when the file is loaded, whatever the command line says, with
    or without a source region: no call is issued and nothing is
    printed. *)
Theorem script_needs_ambient_region (cl : cmdline) (w : world) :
  environ w !! "AWS_DEFAULT_REGION" = None →
  run_script cl w = (Raised (KeyError (PyStr "AWS_DEFAULT_REGION")), w).
Proof. apply run_script_without_default. Qed.

Lemma script_needs_ambient_region_witness :
  run_script (Cmdline (Some "merge") (Some "pg-a") (Some "us-east-1")
                (Some "pg-b") (Some "us-west-2"))
    (sample_world (compare_script source_xy dest_yz)) =
  (Raised (KeyError (PyStr "AWS_DEFAULT_REGION")),
   sample_world (compare_script source_xy dest_yz)).
Proof.
  apply (script_needs_ambient_region
           (Cmdline (Some "merge") (Some "pg-a") (Some "us-east-1")
              (Some "pg-b") (Some "us-west-2"))
           (sample_world (compare_script source_xy dest_yz))).
  reflexivity.
Defined.

(** X21: the action "diff" does what "compare" does, on every command line and
    in every world. *)
Theorem diff_is_compare (p s d r : option string) (w : world) :
  run_script (Cmdline (Some "diff") p s d r) w
  = run_script (Cmdline (Some "compare") p s d r) w.
Proof.
  unfold run_script. rewrite !bind_run.
  destruct (default_source_region w) as [[region| |] w1]; [|done|done].
  unfold main, parse_args. cbn [opt_action opt_parameter_group
    opt_dest_parameter_group opt_source_region opt_dest_region].
  destruct p as [p|], d as [d|]; reflexivity.
Qed.

(** X22: when no destination region is given, the destination client is bound
    to the region of the source client: the one given with the source
    option, or else the one of AWS_DEFAULT_REGION. *)
Theorem dest_region_defaults_to_source (a p s d : option string)
    (region : string) (w : world) :
  environ w !! "AWS_DEFAULT_REGION" = Some region →
  run_script (Cmdline a p s d None) w
  = run_script (Cmdline a p s d (Some (default region s))) w.
Proof.
  intros Henv. unfold run_script. rewrite !bind_run.
  unfold default_source_region. rewrite Henv.
  unfold main, parse_args. rewrite !bind_run.
  cbn [opt_action opt_parameter_group opt_dest_parameter_group
       opt_source_region opt_dest_region].
  destruct a as [a|], p as [p|], d as [d|]; try reflexivity.
  case_bool_decide; reflexivity.
Qed.

Lemma dest_region_defaults_to_source_witness :
  run_script (Cmdline (Some "compare") (Some "pg-a") None (Some "pg-b") None)
    (with_default_region "eu-west-1"
       (sample_world (compare_script source_xy dest_yz)))
  = run_script
      (Cmdline (Some "compare") (Some "pg-a") None (Some "pg-b")
         (Some (default "eu-west-1" None)))
      (with_default_region "eu-west-1"
         (sample_world (compare_script source_xy dest_yz))).
Proof.
  apply (dest_region_defaults_to_source (Some "compare") (Some "pg-a") None
           (Some "pg-b") "eu-west-1"
           (with_default_region "eu-west-1"
              (sample_world (compare_script source_xy dest_yz)))).
  reflexivity.
Defined.

(** ** The calls the script can issue *)

Lemma raise_bind_only_calls {A B} P e (f : A → M B) :
  only_calls P (raise e ≫= f).
Proof.
  intros w r w'. rewrite bind_run. cbn. intros [= <- <-].
  exists []. by rewrite app_nil_r.
Qed.

Lemma ret_bind_only_calls {A B} P (a : A) (f : A → M B) :
  only_calls P (f a) → only_calls P (mret a ≫= f).
Proof. intros Hf w r w'. rewrite bind_run. cbn. apply Hf. Qed.

Lemma main_only_calls region (cl : cmdline) dg :
  opt_dest_parameter_group cl = Some dg →
  only_calls
    (λ cr, is_describe cr.2
           ∨ cr.1 = Client (default (default region (opt_source_region cl))
                              (opt_dest_region cl))
             ∧ ((∃ family description tags,
                   cr.2 = create_db_parameter_group dg family description tags)
                ∨ ∃ b, cr.2 = modify_db_parameter_group dg b))
    (main region cl).
Proof.
  intros Hd. unfold main, parse_args. rewrite Hd.
  destruct (opt_action cl) as [a|], (opt_parameter_group cl) as [p|];
    try apply raise_bind_only_calls.
  case_bool_decide; [|apply raise_bind_only_calls].
  apply ret_bind_only_calls.
  cbn [action source_param_group source_region dest_param_group dest_region].
  destruct (bool_decide (a = "compare") || bool_decide (a = "diff")).
  { apply only_describes_only_calls; [by left|].
    apply bind_only_describes;
      [apply compare_rds_parameters_only_describes|].
    intros _. apply ret_only_describes. }
  case_bool_decide.
  { intros w r w' Hrun.
    destruct (copy_rds_parameters_only_calls _ _ _ _ w r w' Hrun)
      as (new & ? & Hall).
    exists new. split; [done|]. eapply Forall_impl; [exact Hall|].
    intros [c q] [?|[(f & de & t & [= -> ->])|(b & [= -> ->])]];
      [by left|right..]; (split; [done|]); eauto. }
  case_bool_decide.
  { intros w r w' Hrun.
    destruct (merge_rds_parameters_only_calls _ _ _ _ w r w' Hrun)
      as (new & ? & Hall).
    exists new. split; [done|]. eapply Forall_impl; [exact Hall|].
    intros [c q] [?|(b & [= -> ->])]; [by left|right].
    split; [done|]. eauto. }
  apply only_describes_only_calls; [by left|]. apply ret_only_describes.
Qed.

(** X23: whatever the command line, the environment and the service's answers,
    and however the script ends, every call it has issued is a describe
    call, or a call through the destination client (bound to the
    destination region if given, else to the source region if given, else
    to AWS_DEFAULT_REGION) that creates or modifies the destination
    group: the script writes nowhere else. *)
Theorem script_writes_only_to_destination (cl : cmdline) (w : world) :
  ∃ new,
    calls (run_script cl w).2 = calls w ++ new
    ∧ Forall
        (λ cr, is_describe cr.2
               ∨ ∃ region dg,
                   environ w !! "AWS_DEFAULT_REGION" = Some region
                   ∧ opt_dest_parameter_group cl = Some dg
                   ∧ cr.1 = Client (default (default region (opt_source_region cl))
                                      (opt_dest_region cl))
                   ∧ ((∃ family description tags,
                         cr.2 = create_db_parameter_group dg family
                                  description tags)
                      ∨ ∃ b, cr.2 = modify_db_parameter_group dg b))
        new.
Proof.
  unfold run_script. rewrite bind_run. unfold default_source_region.
  destruct (environ w !! "AWS_DEFAULT_REGION") as [region|] eqn:Henv.
  2:{ exists []. by rewrite app_nil_r. }
  destruct (opt_dest_parameter_group cl) as [dg|] eqn:Hd.
  - destruct (main region cl w) as [r w'] eqn:Hrun.
    destruct (main_only_calls region cl dg Hd w r w' Hrun) as (new & ? & Hall).
    exists new. split; [done|]. eapply Forall_impl; [exact Hall|].
    intros cr [?|[? ?]]; [by left|right]. by exists region, dg.
  - unfold main, parse_args. rewrite Hd, bind_run.
    destruct (opt_action cl), (opt_parameter_group cl);
      exists []; by rewrite app_nil_r.
Qed.

(** X24: with the action "compare" or "diff", every call the script has issued
    is a describe call, whatever the rest of the command line, the
    environment and the service's answers: comparing from the command
    line changes nothing on the service. *)
Theorem script_compare_only_reads (a : string) (p s d r : option string)
    (w : world) :
  a = "compare" ∨ a = "diff" →
  ∃ new,
    calls (run_script (Cmdline (Some a) p s d r) w).2 = calls w ++ new
    ∧ Forall (λ cr, is_describe cr.2) new.
Proof.
  intros Ha. unfold run_script. rewrite bind_run.
  unfold default_source_region.
  destruct (environ w !! "AWS_DEFAULT_REGION") as [region|].
  2:{ exists []. by rewrite app_nil_r. }
  unfold main, parse_args.
  cbn [opt_action opt_parameter_group opt_dest_parameter_group
       opt_source_region opt_dest_region].
  destruct p as [p|], d as [d|]; rewrite bind_run;
    try (exists []; by rewrite app_nil_r).
  rewrite bool_decide_true by (destruct Ha as [-> | ->]; set_solver).
  cbn [mret M_ret action source_param_group source_region dest_param_group
       dest_region].
  assert (Hb : bool_decide (a = "compare") || bool_decide (a = "diff") = true).
  { destruct Ha as [-> | ->]; reflexivity. }
  rewrite Hb, bind_run.
  destruct (compare_rds_parameters _ p _ d false w) as [res w'] eqn:Hrun.
  destruct (compare_rds_parameters_only_describes _ _ _ _ _ w res w' Hrun)
    as (new & ? & Hall).
  exists new. split; [|done]. by destruct res.
Qed.

Lemma script_compare_only_reads_witness :
  ∃ new,
    calls (run_script (Cmdline (Some "diff") (Some "pg-a") None (Some "pg-b") None)
             (with_default_region "eu-west-1"
                (sample_world (compare_script source_xy dest_yz)))).2
      = calls (with_default_region "eu-west-1"
                 (sample_world (compare_script source_xy dest_yz))) ++ new
    ∧ Forall (λ cr, is_describe cr.2) new.
Proof.
  apply (script_compare_only_reads "diff"). right. reflexivity.
Defined.
